(** * express-openapi: the router-tree walker and path-template translator

    A shallow embedding of [src/generator.ts] (class [OpenAPIGenerator]),
    [src/utils.ts] and [src/errors.ts], and the properties of the
    walker stated in the specification. *)

From Stdlib Require Import String Ascii List.
From stdpp Require Import base option gmap strings.
Import ListNotations.

Local Open Scope string_scope.
Local Open Scope list_scope.

(** ** JavaScript string primitives used by the generator *)

Module JsString.

(** [s.startsWith(p)] *)
Fixpoint startsWith (s p : string) {struct p} : bool :=
  match p, s with
  | EmptyString, _ => true
  | String _ _, EmptyString => false
  | String a p', String b s' => if Ascii.eqb a b then startsWith s' p' else false
  end.

(** [n] characters dropped from the front. *)
Fixpoint drop (n : nat) (s : string) : string :=
  match n, s with
  | O, _ => s
  | S _, EmptyString => EmptyString
  | S n', String _ s' => drop n' s'
  end.

(** [s.replace(p, '')] with a string pattern: the first occurrence of
    [p], scanning from the left, is removed; no occurrence leaves [s]
    as it is. *)
Fixpoint removeFirst (s p : string) : string :=
  if startsWith s p then drop (String.length p) s
  else match s with
       | EmptyString => EmptyString
       | String c s' => String c (removeFirst s' p)
       end.

(** A string is truthy when it is not empty. *)
Definition truthy (s : string) : bool :=
  match s with EmptyString => false | _ => true end.

Definition between (lo hi : nat) (c : ascii) : bool :=
  (lo <=? nat_of_ascii c)%nat && (nat_of_ascii c <=? hi)%nat.

(** The regular-expression class [\w]: [A-Za-z0-9_]. *)
Definition isWord (c : ascii) : bool :=
  between 97 122 c || between 65 90 c || between 48 57 c
  || Ascii.eqb c "_"%char.

Definition lowerChar (c : ascii) : ascii :=
  if between 65 90 c then ascii_of_nat (nat_of_ascii c + 32) else c.

(** [s.toLowerCase()], on the ASCII letters. No character outside
    ASCII lowercases to a letter of the eight HTTP verbs, so the
    membership test of [isHTTPMethod] is not affected. *)
Fixpoint toLowerCase (s : string) : string :=
  match s with
  | EmptyString => EmptyString
  | String c s' => String (lowerChar c) (toLowerCase s')
  end.

(** Does [s] start with a word character? *)
Definition wordAhead (s : string) : bool :=
  match s with String c _ => isWord c | EmptyString => false end.

(** Does [s] start with [\w*\}] (the rest of a match of
    [\{:(\w+)\}] once [{:] and a first word character are read)? *)
Fixpoint closesGroup (s : string) : bool :=
  match s with
  | EmptyString => false
  | String c s' =>
      if isWord c then closesGroup s'
      else Ascii.eqb c "}"%char
  end.

(** Does [s] start with [:(\w+)\}]? *)
Definition groupMarkerAhead (s : string) : bool :=
  match s with
  | String ":" (String c s') => isWord c && closesGroup s'
  | _ => false
  end.

(** [s.replace(/\{:(\w+)\}/g, ':$1')], as a left-to-right scan. With
    [inName = false] the scan is between matches; at a [{] that opens
    a match it emits [:] and copies the name ([inName = true]) up to
    the closing brace, which it drops. *)
Fixpoint unwrapGroups (inName : bool) (s : string) : string :=
  match s with
  | EmptyString => EmptyString
  | String c s' =>
      if inName then
        if isWord c then String c (unwrapGroups true s')
        else unwrapGroups false s'
      else if Ascii.eqb c "{"%char && groupMarkerAhead s' then
        match s' with
        | String _ s'' => String ":" (unwrapGroups true s'')
        | EmptyString => String c EmptyString
        end
      else String c (unwrapGroups false s')
  end.

(** [s.replace(/:(\w+)/g, '{$1}')], as a left-to-right scan. With
    [inName = true] the scan is inside a match, whose name runs as
    long as word characters follow. *)
Fixpoint braceMarkers (inName : bool) (s : string) : string :=
  match s with
  | EmptyString => if inName then "}" else EmptyString
  | String c s' =>
      if inName && isWord c then String c (braceMarkers true s')
      else
        String.append (if inName then "}" else EmptyString)
          (if Ascii.eqb c ":"%char && wordAhead s'
           then String "{" (braceMarkers true s')
           else String c (braceMarkers false s'))
  end.

End JsString.

(** ** path-to-regexp tokens and [parseKeys] (src/utils.ts) *)

(** [Token] of path-to-regexp: text, parameter, wildcard or group. *)
#[warnings="-register-all"]
Inductive Token : Type :=
| TText (value : string)
| TParam (name : string)
| TWildcard (name : string)
| TGroup (tokens : list Token).

Inductive KeyType : Type := KParam | KWildcard.

(** [Keys] of src/types.ts. *)
Record Keys : Type := mkKeys {
  key_name : string;
  key_type : KeyType;
  key_required : bool
}.

#[global] Instance KeyType_eq_dec : EqDecision KeyType.
Proof. solve_decision. Defined.
#[global] Instance Keys_eq_dec : EqDecision Keys.
Proof. solve_decision. Defined.

(** [processTokens]: the array [parameters] is shared by all the calls
    and grows by [push]; the value a [forEach] callback returns is
    dropped, so the call returns the array it was given, extended.
    [processToken] is the body of the callback. *)
Fixpoint processToken (isInsideGroup : bool) (parameters : list Keys)
    (token : Token) {struct token} : list Keys :=
  match token with
  | TParam name => parameters ++ [mkKeys name KParam (negb isInsideGroup)]
  | TWildcard name =>
      parameters ++ [mkKeys name KWildcard (negb isInsideGroup)]
  | TGroup inner => fold_left (processToken true) inner parameters
  | TText _ => parameters
  end.

Definition processTokens (tokens : list Token) (isInsideGroup : bool)
    (parameters : list Keys) : list Keys :=
  fold_left (processToken isInsideGroup) tokens parameters.

Definition parseKeys (tokens : list Token) : list Keys :=
  processTokens tokens false [].

(** ** The OpenAPI objects the generator reads and writes *)

(** A JSON value, for the parts of the document the generator copies
    without looking inside. *)
#[warnings="-register-all"]
Inductive Json : Type :=
| JNull
| JBool (b : bool)
| JNum (n : Z)
| JStr (s : string)
| JArr (items : list Json)
| JObj (fields : list (string * Json)).

(** [OpenAPIV3.ParameterObject]: [name] and [in] are required by the
    type, the rest is optional; [param_more] holds the optional fields
    the generator never names (deprecated, style, example, ...). *)
Record ParameterObject : Type := mkParameter {
  param_name : string;
  param_in : string;
  param_required : option bool;
  param_schema : option Json;
  param_description : option string;
  param_more : list (string * Json)
}.

(** An entry of [parameters]: a parameter object or a [$ref]. *)
Inductive ParameterEntry : Type :=
| PObject (p : ParameterObject)
| PReference (ref : string).

(** [OpenAPIV3.OperationObject]; [op_more] holds the fields the
    generator never names (tags, operationId, requestBody, ...). *)
Record OperationObject : Type := mkOperation {
  op_summary : option string;
  op_description : option string;
  op_parameters : option (list ParameterEntry);
  op_responses : Json;
  op_more : list (string * Json)
}.

Record ServerObject : Type := mkServer { server_url : string }.

Record InfoObject : Type := mkInfo {
  info_title : string;
  info_version : string
}.

(** [OpenAPIV3.Document]. [paths] maps a path template to its path
    item, and a path item maps a lowercase HTTP method to its operation;
    both are plain objects used as maps, and the maps hold their own
    properties. What [paths] inherits from [Object.prototype] is
    [objectPrototypeNames], below. *)
Record Document : Type := mkDocument {
  doc_openapi : string;
  doc_info : InfoObject;
  doc_servers : option (list ServerObject);
  doc_paths : gmap string (gmap string OperationObject)
}.

(** ** The router tree of the framework *)

(** The identity of a handler or router function: [Map] compares its
    keys by reference. *)
Definition Ref : Type := nat.

Inductive RoutePath : Type :=
| PathString (p : string)
| PathArray (ps : list string).

(** [Layer], its [handle] and its [route]. A handle is a function; the
    handle of a mounted router is a function that has a [stack]. *)
#[warnings="-register-all"]
Inductive Layer : Type :=
| mkLayer (name : string) (handle : Handle) (method : option string)
    (route : option Route)
with Handle : Type :=
| HFunction (ref : Ref)
| HRouter (router : Router)
with Router : Type :=
| mkRouter (ref : Ref) (stack : list Layer)
with Route : Type :=
| mkRoute (path : RoutePath) (stack : list Layer).

Definition layer_name (l : Layer) : string :=
  match l with mkLayer name _ _ _ => name end.
Definition layer_handle (l : Layer) : Handle :=
  match l with mkLayer _ handle _ _ => handle end.
Definition layer_method (l : Layer) : option string :=
  match l with mkLayer _ _ method _ => method end.
Definition layer_route (l : Layer) : option Route :=
  match l with mkLayer _ _ _ route => route end.
Definition router_ref (r : Router) : Ref :=
  match r with mkRouter ref _ => ref end.
Definition router_stack (r : Router) : list Layer :=
  match r with mkRouter _ stack => stack end.
Definition route_path (r : Route) : RoutePath :=
  match r with mkRoute path _ => path end.
Definition route_stack (r : Route) : list Layer :=
  match r with mkRoute _ stack => stack end.

Definition handle_ref (h : Handle) : Ref :=
  match h with
  | HFunction ref => ref
  | HRouter r => router_ref r
  end.

(** [handle.stack?.length ?? 0] *)
Definition handle_stack_length (h : Handle) : nat :=
  match h with
  | HFunction _ => 0
  | HRouter r => length (router_stack r)
  end.

(** ** src/utils.ts *)

Definition isRouter (h : Handle) : bool :=
  match h with
  | HRouter _ => true
  | HFunction _ => false
  end.

Definition isParameterObject (p : ParameterEntry) : bool :=
  match p with
  | PObject _ => true
  | PReference _ => false
  end.

Definition httpMethods : list string :=
  ["get"; "post"; "put"; "patch"; "delete"; "options"; "head"; "trace"].

Definition isHTTPMethod (method : string) : bool :=
  existsb (String.eqb method) httpMethods.

(** ** src/errors.ts *)

Record RouterInfo : Type := mkRouterInfo {
  ri_name : string;
  ri_path : string;
  ri_stackSize : nat
}.

Record PathInfo : Type := mkPathInfo {
  pi_attemptedPath : string;
  pi_routerName : string
}.

(** The two error classes of the package, and the [TypeError] that the
    language or path-to-regexp raises. *)
Inductive Error : Type :=
| RouterRegistrationError (router : RouterInfo)
| WildcardPathError (pathInfo : PathInfo)
| TypeError.

Definition newRouterRegistrationError (layer : Layer) (path : string) : Error :=
  RouterRegistrationError
    {| ri_name := layer_name layer;
       ri_path := path;
       ri_stackSize := handle_stack_length (layer_handle layer) |}.

Definition newWildcardPathError (path routeName : string) : Error :=
  WildcardPathError
    {| pi_attemptedPath := path; pi_routerName := routeName |}.

Definition getRouterInfo (e : Error) : option RouterInfo :=
  match e with RouterRegistrationError r => Some r | _ => None end.

Definition getPathInfo (e : Error) : option PathInfo :=
  match e with WildcardPathError p => Some p | _ => None end.

(** ** src/generator.ts *)

(** The fields of an [OpenAPIGenerator]. *)
Record Generator : Type := mkGenerator {
  doc : Document;
  basePath : string;
  schemaMap : gmap Ref OperationObject;
  routerMap : gmap Ref string
}.

(** A method either returns, leaving the generator in some state, or
    throws, leaving it in the state it had at the [throw]. The third
    outcome is where the embedding stops following the code: the call
    has written its operation as the property [method] of an object
    that [paths] inherits under [name], [Object.prototype] itself for
    [__proto__] and one of its functions otherwise. That object lies
    outside the generator, and every object of the program inherits
    from it; [g] is the generator before the write, and what the code
    goes on to do is not modelled. *)
Inductive Outcome : Type :=
| Returned (g : Generator)
| Thrown (e : Error) (g : Generator)
| Polluted (name method : string) (g : Generator).

Definition andThen (o : Outcome) (k : Generator -> Outcome) : Outcome :=
  match o with
  | Returned g => k g
  | Thrown e g => Thrown e g
  | Polluted name method g => Polluted name method g
  end.

Notation "'do' g <- o ; k" := (andThen o (fun g => k))
  (at level 10, g name, o at level 100, k at level 200).

Section ForEach.
Context {A : Type} (f : A -> Generator -> Outcome).

(** [xs.forEach(x => f(x))], and [for (const x of xs) f(x)]: an
    exception leaves the loop. *)
Fixpoint forEach (xs : list A) (g : Generator) : Outcome :=
  match xs with
  | [] => Returned g
  | x :: xs' => do g' <- f x g; forEach xs' g'
  end.
End ForEach.

(** [new OpenAPIGenerator(baseDoc)]. The keys of [minDoc] are all
    required of [baseDoc] by its type, so [Object.assign(minDoc,
    baseDoc)] has the values of [baseDoc]. [servers?.[0].url] throws on
    an empty [servers] array. *)
Definition constructor (baseDoc : Document) : Error + Generator :=
  match doc_servers baseDoc with
  | None => inr (mkGenerator baseDoc "/" ∅ ∅)
  | Some [] => inl TypeError
  | Some (server :: _) => inr (mkGenerator baseDoc (server_url server) ∅ ∅)
  end.

Definition addSchema (handler : Ref) (schema : OperationObject)
    (g : Generator) : Generator :=
  {| doc := doc g; basePath := basePath g;
     schemaMap := <[handler := schema]> (schemaMap g);
     routerMap := routerMap g |}.

Definition registerRouter (router : Ref) (path : string)
    (g : Generator) : Generator :=
  {| doc := doc g; basePath := basePath g;
     schemaMap := schemaMap g;
     routerMap := <[router := path]> (routerMap g) |}.

Definition getDocument (g : Generator) : Document := doc g.

Definition isWildcard (k : Keys) : bool :=
  match key_type k with KWildcard => true | KParam => false end.

(** The callback of [schema.parameters.find] in [getParams]. *)
Definition declaresPathParam (k : Keys) (p : ParameterEntry) : bool :=
  match p with
  | PReference _ => false
  | PObject p => String.eqb (param_name p) (key_name k)
                 && String.eqb (param_in p) "path"
  end.

(** [schema.parameters && schema.parameters.find(...)] *)
Definition findDeclared (schema : OperationObject) (k : Keys)
  : option ParameterEntry :=
  match op_parameters schema with
  | None => None
  | Some ps => List.find (declaresPathParam k) ps
  end.

(** The first argument of [Object.assign] in [getParams]. *)
Definition defaultParam (k : Keys) : ParameterObject :=
  {| param_name := key_name k;
     param_in := "path";
     param_required := Some (key_required k);
     param_schema := Some (JObj [("type", JStr "string")]);
     param_description := None;
     param_more := [] |}.

Definition orElse {A : Type} (o d : option A) : option A :=
  match o with Some _ => o | None => d end.

(** [Object.assign(target, param || {})]: every property [param] has
    replaces the one of [target]. What [find] returned is a parameter
    object, so a reference does not occur here. *)
Definition assignParam (target : ParameterObject)
    (param : option ParameterEntry) : ParameterObject :=
  match param with
  | Some (PObject p) =>
      {| param_name := param_name p;
         param_in := param_in p;
         param_required := orElse (param_required p) (param_required target);
         param_schema := orElse (param_schema p) (param_schema target);
         param_description :=
           orElse (param_description p) (param_description target);
         param_more := param_more p |}
  | _ => target
  end.

(** [Object.assign({}, schema)] followed by
    [operation.parameters = params]. *)
Definition withParameters (schema : OperationObject)
    (params : list ParameterObject) : OperationObject :=
  {| op_summary := op_summary schema;
     op_description := op_description schema;
     op_parameters := Some (map PObject params);
     op_responses := op_responses schema;
     op_more := op_more schema |}.

(** The base path taken off the accumulated path, first statement of
    [getParams]. *)
Definition stripBasePath (base path : string) : string :=
  if JsString.truthy base && JsString.startsWith path base
  then JsString.removeFirst path base
  else path.

(** The two [replace] calls that turn Express parameters into OpenAPI
    ones. *)
Definition toOpenAPIPath (path : string) : string :=
  JsString.braceMarkers false (JsString.unwrapGroups false path).

(** The names a plain object inherits from [Object.prototype]
    (ECMAScript, Annex B included). *)
Definition objectPrototypeNames : list string :=
  ["constructor"; "__defineGetter__"; "__defineSetter__"; "hasOwnProperty";
   "__lookupGetter__"; "__lookupSetter__"; "isPrototypeOf";
   "propertyIsEnumerable"; "toString"; "valueOf"; "__proto__";
   "toLocaleString"].

Definition inheritedName (name : string) : bool :=
  existsb (String.eqb name) objectPrototypeNames.

(** Does [this.doc.paths[path]] find no own property and come upon an
    inherited one? Then [?? {}] keeps what it found, an object that is
    no part of the document. *)
Definition inheritsPathItem (d : Document) (path : string) : bool :=
  bool_decide (doc_paths d !! path = None) && inheritedName path.

(** [pathObj[method] = operation; this.doc.paths[path] = pathObj], for
    a [pathObj] that [this.doc.paths[path] ?? {}] read from an own
    property of [paths] or made anew; [getParams] comes here in these
    two cases only. *)
Definition setOperation (path method : string) (operation : OperationObject)
    (d : Document) : Document :=
  let pathObj := default ∅ (doc_paths d !! path) in
  {| doc_openapi := doc_openapi d;
     doc_info := doc_info d;
     doc_servers := doc_servers d;
     doc_paths := <[path := <[method := operation]> pathObj]> (doc_paths d) |}.

Section Walker.

(** [PathToRegexp.parse] of the path-to-regexp package; [None] when it
    throws on a path it cannot parse. *)
Variable parse : string -> option (list Token).

Definition getParams (path : string) (layer : Layer) (g : Generator)
  : Outcome :=
  let path := stripBasePath (basePath g) path in
  let handle := handle_ref (layer_handle layer) in
  match schemaMap g !! handle with
  | None => Returned g
  | Some schema =>
      match layer_method layer with
      | None => Thrown TypeError g
      | Some m =>
          let method := JsString.toLowerCase m in
          if negb (isHTTPMethod method) then Returned g
          else
            match parse path with
            | None => Thrown TypeError g
            | Some tokenData =>
                let keys := parseKeys tokenData in
                if existsb isWildcard keys then
                  Thrown (newWildcardPathError path (layer_name layer)) g
                else
                  let params :=
                    map (fun k => assignParam (defaultParam k)
                                    (findDeclared schema k)) keys in
                  let operation := withParameters schema params in
                  let path := toOpenAPIPath path in
                  if inheritsPathItem (doc g) path then
                    Polluted path method g
                  else
                    Returned
                      {| doc := setOperation path method operation (doc g);
                         basePath := basePath g;
                         schemaMap := <[handle := operation]> (schemaMap g);
                         routerMap := routerMap g |}
            end
      end
  end.

(** [l => this.schemaMap.get(l.handle)], as a truth value. *)
Definition hasSchema (g : Generator) (l : Layer) : bool :=
  bool_decide (is_Some (schemaMap g !! handle_ref (layer_handle l))).

Fixpoint recurseStack (path : string) (layer : Layer) (g : Generator)
    {struct layer} : Outcome :=
  match layer with
  | mkLayer name handle _ route =>
      do g <- getParams path layer g;
      do g <-
        (if String.eqb name "router" then
           match handle with
           | HRouter (mkRouter ref stack) =>
               match routerMap g !! ref with
               | Some routerPath =>
                   if JsString.truthy routerPath then
                     forEach (recurseStack (path ++ routerPath)) stack g
                   else Thrown (newRouterRegistrationError layer path) g
               | None => Thrown (newRouterRegistrationError layer path) g
               end
           | HFunction _ => Returned g
           end
         else Returned g);
      match route with
      | None => Returned g
      | Some (mkRoute (PathArray ps) stack) =>
          (fix findSchemaLayer (ls : list Layer) : Outcome :=
             match ls with
             | [] => Returned g
             | l :: ls' =>
                 if hasSchema g l
                 then forEach (fun p => recurseStack (path ++ p) l) ps g
                 else findSchemaLayer ls'
             end) stack
      | Some (mkRoute (PathString p) stack) =>
          forEach (recurseStack (path ++ p)) stack g
      end
  end.

Definition initializeDoc (router : option Router) (g : Generator)
  : Outcome :=
  match router with
  | Some r => forEach (recurseStack "") (router_stack r) g
  | None => Returned g
  end.

End Walker.

(** ** A model of [parse] of path-to-regexp 8, on ASCII paths

    The package is a dependency of the repository; the walker is
    verified for any [parse] (section [Walker] takes it as a variable).
    This model follows the grammar of the package and serves to run the
    walker on concrete routers. *)

Module PathToRegexp.

Inductive LexToken : Type :=
| LOpen                       (* { *)
| LClose                      (* } *)
| LChar (c : ascii)           (* CHAR and ESCAPED *)
| LParam (name : string)
| LWildcard (name : string).

Inductive LexState : Type :=
| SNormal
| SEscape
| SNameStart (wildcard : bool)
| SName (wildcard : bool) (acc : string)
| SQuoted (wildcard : bool) (acc : string)
| SQuotedEscape (wildcard : bool) (acc : string).

Definition isIdStart (c : ascii) : bool :=
  JsString.between 97 122 c || JsString.between 65 90 c
  || Ascii.eqb c "_"%char || Ascii.eqb c "$"%char.

Definition isIdContinue (c : ascii) : bool :=
  isIdStart c || JsString.between 48 57 c.

(** The character that opens and closes a quoted name. *)
Definition quote : ascii := ascii_of_nat 34.

Definition isReserved (c : ascii) : bool :=
  existsb (Ascii.eqb c)
    ["("; ")"; "["; "]"; "+"; "?"; "!"]%char.

Definition nameToken (wildcard : bool) (name : string) : LexToken :=
  if wildcard then LWildcard name else LParam name.

Definition snoc (s : string) (c : ascii) : string :=
  String.append s (String c EmptyString).

(** One character read between names. *)
Definition normalStep (c : ascii) (out : list LexToken)
  : option (LexState * list LexToken) :=
  if Ascii.eqb c "{"%char then Some (SNormal, out ++ [LOpen])
  else if Ascii.eqb c "}"%char then Some (SNormal, out ++ [LClose])
  else if isReserved c then None
  else if Ascii.eqb c "\"%char then Some (SEscape, out)
  else if Ascii.eqb c ":"%char then Some (SNameStart false, out)
  else if Ascii.eqb c "*"%char then Some (SNameStart true, out)
  else Some (SNormal, out ++ [LChar c]).

Fixpoint lexer (st : LexState) (s : string) (out : list LexToken)
  : option (list LexToken) :=
  match s with
  | EmptyString =>
      match st with
      | SNormal => Some out
      | SName w acc => Some (out ++ [nameToken w acc])
      | _ => None
      end
  | String c s' =>
      match st with
      | SNormal =>
          match normalStep c out with
          | Some (st', out') => lexer st' s' out'
          | None => None
          end
      | SEscape => lexer SNormal s' (out ++ [LChar c])
      | SNameStart w =>
          if isIdStart c then lexer (SName w (String c EmptyString)) s' out
          else if Ascii.eqb c quote then lexer (SQuoted w EmptyString) s' out
          else None
      | SName w acc =>
          if isIdContinue c then lexer (SName w (snoc acc c)) s' out
          else
            match normalStep c (out ++ [nameToken w acc]) with
            | Some (st', out') => lexer st' s' out'
            | None => None
            end
      | SQuoted w acc =>
          if Ascii.eqb c quote then
            match acc with
            | EmptyString => None
            | _ => lexer SNormal s' (out ++ [nameToken w acc])
            end
          else if Ascii.eqb c "\"%char then lexer (SQuotedEscape w acc) s' out
          else lexer (SQuoted w (snoc acc c)) s' out
      | SQuotedEscape w acc => lexer (SQuoted w (snoc acc c)) s' out
      end
  end.

(** A character joins the text token that ends [tokens], or starts a
    new one. *)
Fixpoint pushChar (tokens : list Token) (c : ascii) : list Token :=
  match tokens with
  | [] => [TText (String c EmptyString)]
  | [TText value] => [TText (snoc value c)]
  | t :: ts => t :: pushChar ts c
  end.

(** [consume]: [current] is the token list of the innermost group
    that is open, [outer] the lists of the groups around it. *)
Fixpoint consume (ts : list LexToken) (current : list Token)
    (outer : list (list Token)) : option (list Token) :=
  match ts with
  | [] => match outer with [] => Some current | _ => None end
  | LOpen :: ts' => consume ts' [] (current :: outer)
  | LClose :: ts' =>
      match outer with
      | parent :: outer' => consume ts' (parent ++ [TGroup current]) outer'
      | [] => None
      end
  | LChar c :: ts' => consume ts' (pushChar current c) outer
  | LParam name :: ts' => consume ts' (current ++ [TParam name]) outer
  | LWildcard name :: ts' =>
      consume ts' (current ++ [TWildcard name]) outer
  end.

Definition parse (path : string) : option (list Token) :=
  match lexer SNormal path [] with
  | Some ts => consume ts [] []
  | None => None
  end.

End PathToRegexp.

(** ** Notions the properties are stated with *)

(** [TokenAt tokens depth name type]: a parameter or wildcard token of
    that name lies in [tokens] inside [depth] groups. *)
Inductive TokenAt : list Token -> nat -> string -> KeyType -> Prop :=
| at_param tokens name :
    In (TParam name) tokens -> TokenAt tokens 0 name KParam
| at_wildcard tokens name :
    In (TWildcard name) tokens -> TokenAt tokens 0 name KWildcard
| at_group tokens inner depth name type :
    In (TGroup inner) tokens ->
    TokenAt inner depth name type ->
    TokenAt tokens (S depth) name type.

(** The flag a key gets from a token [depth] groups deep, when the scan
    started with [isInsideGroup]. *)
Definition requiredAt (isInsideGroup : bool) (depth : nat) : bool :=
  negb isInsideGroup && (depth =? 0)%nat.

(** The second statement of [recurseStack]: the stack of a mounted
    router is walked under its registered path. *)
Definition mountStep (parse : string -> option (list Token))
    (path : string) (layer : Layer) (g : Generator) : Outcome :=
  if String.eqb (layer_name layer) "router" then
    match layer_handle layer with
    | HRouter r =>
        match routerMap g !! router_ref r with
        | Some routerPath =>
            if JsString.truthy routerPath then
              forEach (recurseStack parse (path ++ routerPath))
                (router_stack r) g
            else Thrown (newRouterRegistrationError layer path) g
        | None => Thrown (newRouterRegistrationError layer path) g
        end
    | HFunction _ => Returned g
    end
  else Returned g.

(** The rest of [recurseStack]: the stack of the route is walked under
    its path, or, for an array of paths, the first layer with a schema
    is walked under each of them. *)
Definition routeStep (parse : string -> option (list Token))
    (path : string) (route : option Route) (g : Generator) : Outcome :=
  match route with
  | None => Returned g
  | Some rt =>
      match route_path rt with
      | PathArray ps =>
          match List.find (hasSchema g) (route_stack rt) with
          | Some schemaLayer =>
              forEach (fun p => recurseStack parse (path ++ p) schemaLayer)
                ps g
          | None => Returned g
          end
      | PathString p =>
          forEach (recurseStack parse (path ++ p)) (route_stack rt) g
      end
  end.

(** A path as a sequence of literal text, markers [:name] and markers
    wrapped in a group, [{:name}]. *)
Inductive Segment : Type :=
| SLiteral (text : string)
| SMarker (name : string)
| SGroupMarker (name : string).

Fixpoint allChars (f : ascii -> bool) (s : string) : bool :=
  match s with
  | EmptyString => true
  | String c s' => f c && allChars f s'
  end.

(** A name the regular expressions read: one or more word characters. *)
Definition isName (name : string) : bool :=
  JsString.truthy name && allChars JsString.isWord name.

(** Literal text: no [:] and no [{]. *)
Definition isLiteral (text : string) : bool :=
  allChars (fun c => negb (Ascii.eqb c ":"%char)
                     && negb (Ascii.eqb c "{"%char)) text.

(** The path as Express writes it. *)
Fixpoint express (segments : list Segment) : string :=
  match segments with
  | [] => EmptyString
  | SLiteral text :: rest => String.append text (express rest)
  | SMarker name :: rest =>
      String ":" (String.append name (express rest))
  | SGroupMarker name :: rest =>
      String "{" (String ":"
        (String.append name (String "}" (express rest))))
  end.

(** The path template, a name in braces for every marker. *)
Fixpoint template (segments : list Segment) : string :=
  match segments with
  | [] => EmptyString
  | SLiteral text :: rest => String.append text (template rest)
  | SMarker name :: rest | SGroupMarker name :: rest =>
      String "{" (String.append name (String "}" (template rest)))
  end.

(** Markers have names, literals are literal, and what follows a
    marker does not go on with a word character. *)
Fixpoint separated (segments : list Segment) : bool :=
  match segments with
  | [] => true
  | SLiteral text :: rest => isLiteral text && separated rest
  | SMarker name :: rest | SGroupMarker name :: rest =>
      isName name && negb (JsString.wordAhead (express rest))
      && separated rest
  end.

(** The segments after the first [replace]: the groups unwrapped. *)
Definition unwrapped (segments : list Segment) : list Segment :=
  map (fun seg => match seg with
                  | SGroupMarker name => SMarker name
                  | _ => seg
                  end) segments.

(** ** Routers and generators the properties are run on *)

Module Examples.

(** [{responses: {"200": {description: "ok"}}}] *)
Definition okOperation : OperationObject :=
  {| op_summary := None;
     op_description := None;
     op_parameters := None;
     op_responses := JObj [("200", JObj [("description", JStr "ok")])];
     op_more := [] |}.

Definition baseDoc (servers : option (list ServerObject)) : Document :=
  {| doc_openapi := "3.0.0";
     doc_info := {| info_title := "Test API"; info_version := "1.0.0" |};
     doc_servers := servers;
     doc_paths := ∅ |}.

(** The generator of a base document without [servers], and of one
    whose first server is [/api/v1]. *)
Definition noServer : Generator :=
  mkGenerator (baseDoc None) "/" ∅ ∅.
Definition apiV1 : Generator :=
  mkGenerator (baseDoc (Some [mkServer "/api/v1"])) "/api/v1" ∅ ∅.

(** [addSchema(handler, okOperation)], the handler being function 1,
    and then [registerRouter(child, '/users')], the router being
    function 30. *)
Definition documented : Generator := addSchema 1 okOperation apiV1.
Definition mounted : Generator := registerRouter 30 "/users" documented.

(** The layer [route.get(handler)] pushes on the stack of a route. *)
Definition handlerLayer (ref : Ref) (method : string) : Layer :=
  mkLayer "handler" (HFunction ref) (Some method) None.

(** The layer [router.route(path)] pushes on the stack of a router:
    its handle dispatches to the route. *)
Definition routeLayer (dispatch : Ref) (path : RoutePath)
    (stack : list Layer) : Layer :=
  mkLayer "handle" (HFunction dispatch) None (Some (mkRoute path stack)).

(** The layer [router.use(path, child)] pushes. *)
Definition mountLayer (child : Router) : Layer :=
  mkLayer "router" (HRouter child) None None.

(** [router.get('/users/:id', handler)], the handler being function 1. *)
Definition usersRouter : Router :=
  mkRouter 10 [routeLayer 11 (PathString "/users/:id") [handlerLayer 1 "get"]].

(** [router.get('/files/*file', handler)] *)
Definition filesRouter : Router :=
  mkRouter 20 [routeLayer 21 (PathString "/files/*file") [handlerLayer 1 "get"]].

(** [parent.use('/users', child)] with [child.get('/profile', handler)] *)
Definition childRouter : Router :=
  mkRouter 30 [routeLayer 31 (PathString "/profile") [handlerLayer 1 "get"]].
Definition parentRouter : Router :=
  mkRouter 32 [mountLayer childRouter].

(** [router.get(['/a/:x', '/b/:x'], handler)] *)
Definition fanOutRouter : Router :=
  mkRouter 40
    [routeLayer 41 (PathArray ["/a/:x"; "/b/:x"]) [handlerLayer 1 "get"]].

(** [{summary: "Find", description: "Finds x", responses: ...}] *)
Definition findOperation : OperationObject :=
  {| op_summary := Some "Find";
     op_description := Some "Finds x";
     op_parameters := None;
     op_responses := JObj [("200", JObj [("description", JStr "ok")])];
     op_more := [] |}.

(** [router.get('/x{:a}b', handler)] *)
Definition groupRouter : Router :=
  mkRouter 50 [routeLayer 51 (PathString "/x{:a}b") [handlerLayer 1 "get"]].

(** [router.get('/a/:x', handler)] and [router.get('/b', handler)], one
    handler for both, registered with a description of [x]. *)
Definition sharedRouter : Router :=
  mkRouter 60
    [routeLayer 61 (PathString "/a/:x") [handlerLayer 1 "get"];
     routeLayer 62 (PathString "/b") [handlerLayer 1 "get"]].

Definition describedOperation : OperationObject :=
  {| op_summary := None;
     op_description := None;
     op_parameters :=
       Some [PObject {| param_name := "x";
                        param_in := "path";
                        param_required := None;
                        param_schema := None;
                        param_description := Some "The x";
                        param_more := [] |}];
     op_responses := JObj [("200", JObj [("description", JStr "ok")])];
     op_more := [] |}.

(** A schema that declares a query parameter, a reference, and the
    path parameter [id] with a description and an integer schema. *)
Definition searchOperation : OperationObject :=
  {| op_summary := Some "Search";
     op_description := None;
     op_parameters :=
       Some [PObject {| param_name := "q";
                        param_in := "query";
                        param_required := Some false;
                        param_schema := None;
                        param_description := None;
                        param_more := [] |};
             PReference "#/components/parameters/page";
             PObject {| param_name := "id";
                        param_in := "path";
                        param_required := None;
                        param_schema := Some (JObj [("type", JStr "integer")]);
                        param_description := Some "The id";
                        param_more := [] |}];
     op_responses := JObj [("200", JObj [("description", JStr "ok")])];
     op_more := [] |}.

(** [router.use(handler)]: a layer without method and without route. *)
Definition useRouter : Router :=
  mkRouter 70 [mkLayer "handler" (HFunction 1) None None].

(** [parent.use('/api/v1', child)] with [child.get('__proto__', handler)] *)
Definition protoRouter : Router :=
  mkRouter 90 [routeLayer 91 (PathString "__proto__") [handlerLayer 1 "get"]].
Definition protoParent : Router :=
  mkRouter 92 [mountLayer protoRouter].

(** [router.get('/a/:id', handler)] and [router.get('/b{/:id}', handler)],
    one handler for both. *)
Definition optionalRouter : Router :=
  mkRouter 80
    [routeLayer 81 (PathString "/a/:id") [handlerLayer 1 "get"];
     routeLayer 82 (PathString "/b{/:id}") [handlerLayer 1 "get"]].

(** A layer that holds a router but is not named [router]. *)
Definition renamedMount : Layer :=
  mkLayer "api" (HRouter childRouter) None None.

(** A router whose stack is that layer. *)
Definition renamedParent : Router :=
  mkRouter 33 [renamedMount].

End Examples.

(** The layers beneath a layer: the stack of the router it mounts, and
    the stack of its route. *)
Definition handle_layers (h : Handle) : list Layer :=
  match h with
  | HRouter r => router_stack r
  | HFunction _ => []
  end.

Definition route_layers (route : option Route) : list Layer :=
  match route with
  | Some rt => route_stack rt
  | None => []
  end.

(** The generator a call leaves behind, returned or thrown, or the one
    from which the code is not followed. *)
Definition final (o : Outcome) : Generator :=
  match o with
  | Returned g => g
  | Thrown _ g => g
  | Polluted _ _ g => g
  end.

(** [Reaches parse path layer g path' layer' g']: the call
    [recurseStack(path, layer)] made in state [g] comes to make the call
    [recurseStack(path', layer')], in state [g']. The loops run in order
    and stop at an exception, so the calls on the layers before the one
    entered have returned. *)
Inductive Reaches (parse : string -> option (list Token))
  : string -> Layer -> Generator -> string -> Layer -> Generator -> Prop :=
| reaches_here path layer g :
    Reaches parse path layer g path layer g
| reaches_mount path layer g g1 r routerPath before l after g2 path' layer' g' :
    getParams parse path layer g = Returned g1 ->
    layer_name layer = "router" ->
    layer_handle layer = HRouter r ->
    routerMap g1 !! router_ref r = Some routerPath ->
    JsString.truthy routerPath = true ->
    router_stack r = before ++ l :: after ->
    forEach (recurseStack parse (path ++ routerPath)) before g1 = Returned g2 ->
    Reaches parse (path ++ routerPath) l g2 path' layer' g' ->
    Reaches parse path layer g path' layer' g'
| reaches_route path layer g g1 g2 rt p before l after g3 path' layer' g' :
    getParams parse path layer g = Returned g1 ->
    mountStep parse path layer g1 = Returned g2 ->
    layer_route layer = Some rt ->
    route_path rt = PathString p ->
    route_stack rt = before ++ l :: after ->
    forEach (recurseStack parse (path ++ p)) before g2 = Returned g3 ->
    Reaches parse (path ++ p) l g3 path' layer' g' ->
    Reaches parse path layer g path' layer' g'
| reaches_fan_out path layer g g1 g2 rt ps l before p after g3 path' layer' g' :
    getParams parse path layer g = Returned g1 ->
    mountStep parse path layer g1 = Returned g2 ->
    layer_route layer = Some rt ->
    route_path rt = PathArray ps ->
    List.find (hasSchema g2) (route_stack rt) = Some l ->
    ps = before ++ p :: after ->
    forEach (fun p => recurseStack parse (path ++ p) l) before g2
      = Returned g3 ->
    Reaches parse (path ++ p) l g3 path' layer' g' ->
    Reaches parse path layer g path' layer' g'.

(** [Visits parse root g0 path layer g]: [initializeDoc(root)], called
    in state [g0], comes to call [recurseStack(path, layer)] in state
    [g]. *)
Inductive Visits (parse : string -> option (list Token)) (root : Router)
    (g0 : Generator) (path : string) (layer : Layer) (g : Generator) : Prop :=
| visits_from before l after g1 :
    router_stack root = before ++ l :: after ->
    forEach (recurseStack parse "") before g0 = Returned g1 ->
    Reaches parse "" l g1 path layer g ->
    Visits parse root g0 path layer g.

(** What a walk never changes: the registered mount paths, the base
    path, and which handlers have metadata. *)
Definition sameRegistrations (g g' : Generator) : Prop :=
  routerMap g' = routerMap g
  /\ basePath g' = basePath g
  /\ dom (schemaMap g') = dom (schemaMap g).

(** The parameter objects [getParams] resolves for the keys of a path,
    against the parameters the schema declares. *)
Definition resolveParams (schema : OperationObject) (keys : list Keys)
  : list ParameterObject :=
  map (fun k => assignParam (defaultParam k) (findDeclared schema k)) keys.

(** The [required] of the path parameter the schema declares for a
    key, where [find] comes upon one that has the field. *)
Definition declaredRequired (schema : OperationObject) (k : Keys)
  : option bool :=
  match findDeclared schema k with
  | Some (PObject p) => param_required p
  | _ => None
  end.

(** The generator after [getParams] recorded [operation] for [handle]
    under [path] and [method]. *)
Definition recorded (g : Generator) (handle : Ref) (path method : string)
    (operation : OperationObject) : Generator :=
  {| doc := setOperation path method operation (doc g);
     basePath := basePath g;
     schemaMap := <[handle := operation]> (schemaMap g);
     routerMap := routerMap g |}.

(** [document.paths[path][method]] *)
Definition operationAt (d : Document) (path method : string)
  : option OperationObject :=
  doc_paths d !! path ≫= fun pathObj => pathObj !! method.

(** ** The records of a walk, read off the router tree

    What a walk records depends on the tree, on the registered paths
    and on which handlers have metadata, none of which it changes. A
    plan lists the records in the order the walk makes them, up to the
    exception, or the write on an inherited object, that ends it, if
    any. *)

(** One record: [operation] is written under [path] and [method] of
    the document and for [handle] in the schema map; [keys] are the
    keys parsed from the path. *)
Record Write : Type := mkWrite {
  w_handle : Ref;
  w_path : string;
  w_method : string;
  w_keys : list Keys;
  w_operation : OperationObject
}.

(** What ends a plan: an exception, or a write on an object that
    [paths] inherits. *)
Inductive Stop : Type :=
| Throws (e : Error)
| Pollutes (name method : string).

Definition Plan : Type := (list Write * option Stop)%type.

Definition planThen (p q : Plan) : Plan :=
  match snd p with
  | Some e => p
  | None => (fst p ++ fst q, snd q)
  end.

Fixpoint planEach {A : Type} (f : A -> Plan) (xs : list A) : Plan :=
  match xs with
  | [] => ([], None)
  | x :: xs' => planThen (f x) (planEach f xs')
  end.

(** The operation a handler is recorded with: its schema, the
    parameters resolved for [keys]. *)
Definition settledOperation (schema : OperationObject) (keys : list Keys)
  : OperationObject :=
  withParameters schema (resolveParams schema keys).

Section Plans.

Variable parse : string -> option (list Token).

(** The generator the walk starts from: its schemas are the ones the
    caller registered. *)
Variable g0 : Generator.

Definition planParams (path : string) (layer : Layer) : Plan :=
  let path := stripBasePath (basePath g0) path in
  let handle := handle_ref (layer_handle layer) in
  match schemaMap g0 !! handle with
  | None => ([], None)
  | Some schema =>
      match layer_method layer with
      | None => ([], Some (Throws TypeError))
      | Some m =>
          let method := JsString.toLowerCase m in
          if negb (isHTTPMethod method) then ([], None)
          else
            match parse path with
            | None => ([], Some (Throws TypeError))
            | Some tokenData =>
                let keys := parseKeys tokenData in
                if existsb isWildcard keys then
                  ([], Some (Throws (newWildcardPathError path
                                       (layer_name layer))))
                else if inheritsPathItem (doc g0) (toOpenAPIPath path) then
                  ([], Some (Pollutes (toOpenAPIPath path) method))
                else
                  ([mkWrite handle (toOpenAPIPath path) method keys
                      (settledOperation schema keys)], None)
            end
      end
  end.

Fixpoint planLayer (path : string) (layer : Layer) {struct layer} : Plan :=
  match layer with
  | mkLayer name handle _ route =>
      planThen (planParams path layer)
        (planThen
           (if String.eqb name "router" then
              match handle with
              | HRouter (mkRouter ref stack) =>
                  match routerMap g0 !! ref with
                  | Some routerPath =>
                      if JsString.truthy routerPath then
                        planEach (planLayer (path ++ routerPath)) stack
                      else ([], Some (Throws (newRouterRegistrationError
                                                layer path)))
                  | None => ([], Some (Throws (newRouterRegistrationError
                                                 layer path)))
                  end
              | HFunction _ => ([], None)
              end
            else ([], None))
           (match route with
            | None => ([], None)
            | Some (mkRoute (PathArray ps) stack) =>
                (fix findSchemaLayer (ls : list Layer) : Plan :=
                   match ls with
                   | [] => ([], None)
                   | l :: ls' =>
                       if hasSchema g0 l
                       then planEach (fun p => planLayer (path ++ p) l) ps
                       else findSchemaLayer ls'
                   end) stack
            | Some (mkRoute (PathString p) stack) =>
                planEach (planLayer (path ++ p)) stack
            end))
  end.

Definition planRoot (root : Router) : Plan :=
  planEach (planLayer "") (router_stack root).

End Plans.

(** The plans of the second statement of [recurseStack] and of the
    rest of it. *)
Definition planMount (parse : string -> option (list Token)) (g0 : Generator)
    (path : string) (layer : Layer) : Plan :=
  if String.eqb (layer_name layer) "router" then
    match layer_handle layer with
    | HRouter r =>
        match routerMap g0 !! router_ref r with
        | Some routerPath =>
            if JsString.truthy routerPath then
              planEach (planLayer parse g0 (path ++ routerPath))
                (router_stack r)
            else ([], Some (Throws (newRouterRegistrationError layer path)))
        | None => ([], Some (Throws (newRouterRegistrationError layer path)))
        end
    | HFunction _ => ([], None)
    end
  else ([], None).

Definition planRoute (parse : string -> option (list Token)) (g0 : Generator)
    (path : string) (route : option Route) : Plan :=
  match route with
  | None => ([], None)
  | Some rt =>
      match route_path rt with
      | PathArray ps =>
          match List.find (hasSchema g0) (route_stack rt) with
          | Some schemaLayer =>
              planEach (fun p => planLayer parse g0 (path ++ p) schemaLayer) ps
          | None => ([], None)
          end
      | PathString p =>
          planEach (planLayer parse g0 (path ++ p)) (route_stack rt)
      end
  end.

Definition applyWrite (g : Generator) (w : Write) : Generator :=
  recorded g (w_handle w) (w_path w) (w_method w) (w_operation w).

Definition applyWrites (ws : list Write) (g : Generator) : Generator :=
  fold_left applyWrite ws g.

(** The outcome a plan stands for, from the generator [g]. *)
Definition outcomeOf (p : Plan) (g : Generator) : Outcome :=
  match snd p with
  | None => Returned (applyWrites (fst p) g)
  | Some (Throws e) => Thrown e (applyWrites (fst p) g)
  | Some (Pollutes name method) =>
      Polluted name method (applyWrites (fst p) g)
  end.

(** Every handler is recorded with the same keys wherever the walk
    reaches it, and the keys of a record have distinct names. *)
Definition sameKeysPerHandler (ws : list Write) : Prop :=
  forall w1 w2, In w1 ws -> In w2 ws ->
                w_handle w1 = w_handle w2 -> w_keys w1 = w_keys w2.

Definition distinctNames (ws : list Write) : Prop :=
  Forall (fun w => NoDup (map key_name (w_keys w))) ws.

(** A record made from the schema [g0] holds for its handler, under a
    path that [paths] has or does not inherit. *)
Definition fromSchema (g0 : Generator) (w : Write) : Prop :=
  inheritsPathItem (doc g0) (w_path w) = false
  /\ exists schema,
       schemaMap g0 !! w_handle w = Some schema
       /\ w_operation w = settledOperation schema (w_keys w).

(** The generators a walk from [g0] with the records [ws] passes
    through: the registrations are those of [g0], the paths read from
    an inherited object are those of [g0], and a handler has its schema
    of [g0] or the operation of one of its records. *)
Definition settling (g0 : Generator) (ws : list Write) (g : Generator)
  : Prop :=
  sameRegistrations g0 g
  /\ (forall key,
         inheritsPathItem (doc g) key = inheritsPathItem (doc g0) key)
  /\ forall h,
       schemaMap g !! h = schemaMap g0 !! h
       \/ exists w, In w ws /\ w_handle w = h
                    /\ schemaMap g !! h = Some (w_operation w).

(** The path items and the schemas after the records [ws]. *)
Definition pathsOf (ws : list Write)
    (paths : gmap string (gmap string OperationObject))
  : gmap string (gmap string OperationObject) :=
  fold_left
    (fun paths w =>
       <[w_path w := <[w_method w := w_operation w]>
                       (default ∅ (paths !! w_path w))]> paths)
    ws paths.

Definition schemasOf (ws : list Write) (schemas : gmap Ref OperationObject)
  : gmap Ref OperationObject :=
  fold_left (fun schemas w => <[w_handle w := w_operation w]> schemas)
    ws schemas.

(** Path items laid over others: under a path both have, the
    operations of the first come before those of the second. *)
Definition overlay (new old : gmap string (gmap string OperationObject))
  : gmap string (gmap string OperationObject) :=
  union_with (fun n o => Some (n ∪ o)) new old.

(** ** Notions for the further properties *)

(** A key with [required] set to false, as [processTokens] makes the
    keys of a group. *)
Definition notRequired (k : Keys) : Keys :=
  mkKeys (key_name k) (key_type k) false.

(** Does the path hold an Express marker, a [:] with a word character
    after it? *)
Fixpoint hasMarker (s : string) : bool :=
  match s with
  | EmptyString => false
  | String c s' =>
      (Ascii.eqb c ":"%char && JsString.wordAhead s') || hasMarker s'
  end.

(** ** src/middleware.ts *)

Module ExpressMiddleware.

(** What [ExpressOpenAPI] closes over: the generator and the latch.
    The property [document] of the middleware and the field [doc] of
    the generator are one object ([getDocument] and [initializeDoc]
    both return [this.doc]), so [document] is read off the generator. *)
Record Middleware : Type := mkMiddleware {
  mw_generator : Generator;
  mw_isFirstRequest : bool
}.

Definition document (mw : Middleware) : Document :=
  getDocument (mw_generator mw).

(** [ExpressOpenAPI(opts)] *)
Definition ExpressOpenAPI (baseDoc : Document) : Error + Middleware :=
  match constructor baseDoc with
  | inl e => inl e
  | inr generator => inr (mkMiddleware generator true)
  end.

(** A request either goes on to [router(req, res, next)], the empty
    router of the middleware, or ends with the exception of the walk;
    it is not followed where the walk is not. *)
Inductive Handled : Type :=
| Passed (mw : Middleware)
| Failed (e : Error) (mw : Middleware)
| Unfollowed (mw : Middleware).

(** [middleware(req, res, next)], with [router] for [req.app.router]:
    the latch is cleared after [initializeDoc] has returned. *)
Definition middleware (parse : string -> option (list Token))
    (router : option Router) (mw : Middleware) : Handled :=
  if mw_isFirstRequest mw then
    match initializeDoc parse router (mw_generator mw) with
    | Returned g => Passed (mkMiddleware g false)
    | Thrown e g => Failed e (mkMiddleware g true)
    | Polluted _ _ g => Unfollowed (mkMiddleware g true)
    end
  else Passed mw.

(** [middleware.asRouterArgs(path, router)] *)
Definition asRouterArgs (path : string) (router : Router) (mw : Middleware)
  : Middleware * (string * Router) :=
  (mkMiddleware (registerRouter (router_ref router) path (mw_generator mw))
     (mw_isFirstRequest mw),
   (path, router)).

(** [middleware.path(schema)]: [schemaMiddleware] is the function the
    call creates, a function no other call returns. *)
Definition path (schemaMiddleware : Ref) (schema : OperationObject)
    (mw : Middleware) : Middleware * Ref :=
  (mkMiddleware (addSchema schemaMiddleware schema (mw_generator mw))
     (mw_isFirstRequest mw),
   schemaMiddleware).

End ExpressMiddleware.

(** * Properties *)

(** ** Flattening of the parsed tokens *)

(** Induction on tokens that reaches the tokens of a group. *)
Lemma Token_nested_ind (P : Token -> Prop) :
  (forall value, P (TText value)) ->
  (forall name, P (TParam name)) ->
  (forall name, P (TWildcard name)) ->
  (forall tokens, Forall P tokens -> P (TGroup tokens)) ->
  forall t, P t.
Proof.
  intros Htext Hparam Hwild Hgroup.
  fix IH 1. intros [value | name | name | tokens].
  - apply Htext.
  - apply Hparam.
  - apply Hwild.
  - apply Hgroup. induction tokens as [| t ts IHts]; constructor.
    + apply IH.
    + exact IHts.
Qed.

Lemma TokenAt_cons t ts depth name type :
  TokenAt (t :: ts) depth name type <->
  TokenAt [t] depth name type \/ TokenAt ts depth name type.
Proof.
  split.
  - intros H. inversion H as [? ? Hin | ? ? Hin | ? inner ? ? ? Hin Hat]; subst.
    + destruct Hin as [-> | Hin];
        [left; apply at_param; now left | right; now apply at_param].
    + destruct Hin as [-> | Hin];
        [left; apply at_wildcard; now left | right; now apply at_wildcard].
    + destruct Hin as [-> | Hin];
        [left | right]; apply at_group with inner; auto. now left.
  - intros [H | H];
      inversion H as [? ? Hin | ? ? Hin | ? inner ? ? ? Hin Hat]; subst.
    + destruct Hin as [-> | []]. apply at_param. now left.
    + destruct Hin as [-> | []]. apply at_wildcard. now left.
    + destruct Hin as [-> | []]. apply at_group with inner; auto. now left.
    + apply at_param. now right.
    + apply at_wildcard. now right.
    + apply at_group with inner; auto. now right.
Qed.

Lemma TokenAt_nil depth name type : ~ TokenAt [] depth name type.
Proof. intros H. inversion H; subst; contradiction. Qed.

Lemma processToken_spec t :
  forall inside acc k,
    In k (processToken inside acc t) <->
    In k acc \/
    exists depth, TokenAt [t] depth (key_name k) (key_type k)
                  /\ key_required k = requiredAt inside depth.
Proof.
  induction t as [value | name | name | tokens IH] using Token_nested_ind;
    intros inside acc k; simpl.
  - split; [auto |]. intros [H | (d & H & _)]; [exact H |].
    inversion H as [? ? Hin | ? ? Hin | ? ? ? ? ? Hin _]; subst;
      destruct Hin as [Heq | []]; discriminate.
  - rewrite in_app_iff. split.
    + intros [H | [<- | []]]; [now left | right]. exists 0. split.
      * apply at_param. now left.
      * unfold requiredAt. simpl. now rewrite andb_true_r.
    + intros [H | (d & H & Hreq)]; [now left | right; left].
      inversion H as [? ? Hin | ? ? Hin | ? ? ? ? ? Hin _]; subst;
        destruct Hin as [Heq | []]; try discriminate.
      injection Heq as ->. destruct k as [kn kt kr]; simpl in *; subst.
      unfold requiredAt. simpl. now rewrite andb_true_r.
  - rewrite in_app_iff. split.
    + intros [H | [<- | []]]; [now left | right]. exists 0. split.
      * apply at_wildcard. now left.
      * unfold requiredAt. simpl. now rewrite andb_true_r.
    + intros [H | (d & H & Hreq)]; [now left | right; left].
      inversion H as [? ? Hin | ? ? Hin | ? ? ? ? ? Hin _]; subst;
        destruct Hin as [Heq | []]; try discriminate.
      injection Heq as ->. destruct k as [kn kt kr]; simpl in *; subst.
      unfold requiredAt. simpl. now rewrite andb_true_r.
  - assert (Hfold : forall acc',
               In k (fold_left (processToken true) tokens acc') <->
               In k acc' \/
               exists depth, TokenAt tokens depth (key_name k) (key_type k)
                             /\ key_required k = false).
    { induction IH as [| t ts Ht _ IHts]; intros acc'; simpl.
      - split; [auto |]. intros [H | (d & H & _)]; [exact H |].
        now apply TokenAt_nil in H.
      - rewrite IHts, Ht. split.
        + intros [[H | (d & H & Hreq)] | (d & H & Hreq)].
          * now left.
          * right. exists d. split; [| exact Hreq].
            apply TokenAt_cons. now left.
          * right. exists d. split; [| exact Hreq].
            apply TokenAt_cons. now right.
        + intros [H | (d & H & Hreq)]; [now left; left |].
          apply TokenAt_cons in H as [H | H].
          * left; right. now exists d.
          * right. now exists d. }
    rewrite Hfold. split.
    + intros [H | (d & H & Hreq)]; [now left | right].
      exists (S d). split.
      * apply at_group with tokens; [now left | exact H].
      * rewrite Hreq. unfold requiredAt. simpl. now rewrite andb_false_r.
    + intros [H | (d & H & Hreq)]; [now left | right].
      inversion H as [? ? Hin | ? ? Hin | ? inner d' ? ? Hin Hat]; subst;
        destruct Hin as [Heq | []]; try discriminate.
      injection Heq as ->. exists d'. split; [exact Hat |].
      rewrite Hreq. unfold requiredAt. simpl. now rewrite andb_false_r.
Qed.

Lemma processTokens_spec tokens :
  forall inside acc k,
    In k (processTokens tokens inside acc) <->
    In k acc \/
    exists depth, TokenAt tokens depth (key_name k) (key_type k)
                  /\ key_required k = requiredAt inside depth.
Proof.
  unfold processTokens.
  induction tokens as [| t ts IH]; intros inside acc k; simpl.
  - split; [auto |]. intros [H | (d & H & _)]; [exact H |].
    now apply TokenAt_nil in H.
  - rewrite IH, processToken_spec. split.
    + intros [[H | (d & H & Hreq)] | (d & H & Hreq)].
      * now left.
      * right. exists d. split; [| exact Hreq]. apply TokenAt_cons. now left.
      * right. exists d. split; [| exact Hreq]. apply TokenAt_cons. now right.
    + intros [H | (d & H & Hreq)]; [now left; left |].
      apply TokenAt_cons in H as [H | H].
      * left; right. now exists d.
      * right. now exists d.
Qed.

(** The keys of a path are the parameter and wildcard tokens found at
    some depth of nesting, each with [required] true at depth 0 and
    false at any greater depth. *)
Lemma parseKeys_TokenAt (tokens : list Token) :
  forall name type required,
    In (mkKeys name type required) (parseKeys tokens) <->
    exists depth, TokenAt tokens depth name type
                  /\ required = (depth =? 0)%nat.
Proof.
  intros name type required. unfold parseKeys.
  rewrite processTokens_spec. simpl. split.
  - intros [[] | (d & H & Hreq)]. exists d. split; [exact H |].
    now rewrite Hreq.
  - intros (d & H & Hreq). right. exists d. split; [exact H |].
    now rewrite Hreq.
Qed.

(** ** The shape of one step of the walk *)

Lemma recurseStack_unfold parse path layer g :
  recurseStack parse path layer g =
  do g <- getParams parse path layer g;
  do g <- mountStep parse path layer g;
  routeStep parse path (layer_route layer) g.
Proof.
  destruct layer as [name handle method route]; simpl.
  destruct (getParams parse path (mkLayer name handle method route) g)
    as [g1 | e g1 | n mt g1]; simpl; [| reflexivity | reflexivity].
  unfold mountStep; simpl.
  assert (Hroute : forall g2,
    match route with
    | Some (mkRoute (PathString p) stack) =>
        forEach (recurseStack parse (path ++ p)) stack g2
    | Some (mkRoute (PathArray ps) stack) =>
        (fix findSchemaLayer (ls : list Layer) : Outcome :=
           match ls with
           | [] => Returned g2
           | l :: ls' =>
               if hasSchema g2 l
               then forEach (fun p => recurseStack parse (path ++ p) l) ps g2
               else findSchemaLayer ls'
           end) stack
    | None => Returned g2
    end = routeStep parse path route g2).
  { intros g2. unfold routeStep.
    destruct route as [[[p | ps] stack] |]; simpl; try reflexivity.
    induction stack as [| l ls IH]; simpl; [reflexivity |].
    destruct (hasSchema g2 l); [reflexivity | exact IH]. }
  destruct (String.eqb name "router"); simpl; [| apply Hroute].
  destruct handle as [ref | [ref stack]]; simpl; [apply Hroute |].
  destruct (routerMap g1 !! ref) as [routerPath |]; simpl; [| reflexivity].
  destruct (JsString.truthy routerPath); simpl; [| reflexivity].
  destruct (forEach _ stack g1); simpl;
    [apply Hroute | reflexivity | reflexivity].
Qed.

(** [getParams] writes to the document and to the schema map only. *)
Lemma getParams_routerMap parse path layer g g' :
  getParams parse path layer g = Returned g' ->
  routerMap g' = routerMap g /\ basePath g' = basePath g.
Proof.
  unfold getParams. intros H.
  destruct (schemaMap g !! _); [| injection H as <-; auto].
  destruct (layer_method layer); [| discriminate].
  destruct (negb _); [injection H as <-; auto |].
  destruct (parse _); [| discriminate].
  destruct (existsb _ _); [discriminate |].
  destruct (inheritsPathItem _ _); [discriminate |].
  injection H as <-. auto.
Qed.

(** Induction on layers that reaches the stacks of the router and of
    the route a layer holds. *)
Lemma Layer_nested_ind (P : Layer -> Prop) :
  (forall name handle method route,
      Forall P (handle_layers handle) ->
      Forall P (route_layers route) ->
      P (mkLayer name handle method route)) ->
  forall l, P l.
Proof.
  intros Hlayer. fix IH 1. intros [name handle method route].
  apply Hlayer.
  - destruct handle as [ref | [ref stack]]; simpl; [constructor |].
    induction stack as [| l ls IHls]; constructor; [apply IH | exact IHls].
  - destruct route as [[p stack] |]; simpl; [| constructor].
    induction stack as [| l ls IHls]; constructor; [apply IH | exact IHls].
Qed.

Lemma forEach_app {A} (f : A -> Generator -> Outcome) xs ys g :
  forEach f (xs ++ ys) g = do g' <- forEach f xs g; forEach f ys g'.
Proof.
  revert g. induction xs as [| x xs IH]; intros g; simpl; [reflexivity |].
  destruct (f x g); simpl; [apply IH | reflexivity | reflexivity].
Qed.

(** An exception thrown by one call of a loop leaves the loop. *)
Lemma forEach_thrown {A} (f : A -> Generator -> Outcome) before x after g g1 e g' :
  forEach f before g = Returned g1 ->
  f x g1 = Thrown e g' ->
  forEach f (before ++ x :: after) g = Thrown e g'.
Proof.
  intros Hbefore Hx. rewrite forEach_app, Hbefore. simpl. now rewrite Hx.
Qed.

Section Invariants.
Variable R : Generator -> Generator -> Prop.
Hypothesis R_refl : forall g, R g g.
Hypothesis R_trans : forall g1 g2 g3, R g1 g2 -> R g2 g3 -> R g1 g3.

Lemma forEach_invariant {A} (f : A -> Generator -> Outcome) xs :
  Forall (fun x => forall g, R g (final (f x g))) xs ->
  forall g, R g (final (forEach f xs g)).
Proof.
  induction 1 as [| x xs Hx _ IH]; intros g; simpl; [apply R_refl |].
  specialize (Hx g).
  destruct (f x g) as [g1 | e g1 | n mt g1]; simpl in *.
  - eapply R_trans; [exact Hx | apply IH].
  - exact Hx.
  - exact Hx.
Qed.

Variable parse : string -> option (list Token).
Hypothesis R_getParams :
  forall path layer g, R g (final (getParams parse path layer g)).

(** What every metadata step keeps, the whole walk keeps. *)
Lemma recurseStack_invariant layer :
  forall path g, R g (final (recurseStack parse path layer g)).
Proof.
  induction layer as [name handle method route IHrouter IHroute]
    using Layer_nested_ind.
  intros path g. rewrite recurseStack_unfold.
  pose proof (R_getParams path (mkLayer name handle method route) g) as H1.
  destruct (getParams _ _ _ g) as [g1 | e g1 | n mt g1]; simpl in *;
    [| exact H1 | exact H1].
  assert (H2 : R g1 (final (mountStep parse path
                              (mkLayer name handle method route) g1))).
  { unfold mountStep; simpl.
    destruct (String.eqb name "router"); [| apply R_refl].
    destruct handle as [ref | r]; [apply R_refl |].
    destruct (routerMap g1 !! router_ref r) as [rp |]; [| apply R_refl].
    destruct (JsString.truthy rp); [| apply R_refl].
    apply forEach_invariant.
    eapply Forall_impl; [exact IHrouter |].
    intros l Hl g'. apply Hl. }
  destruct (mountStep _ _ _ g1) as [g2 | e g2 | n mt g2]; simpl in *;
    [| eapply R_trans; eassumption | eapply R_trans; eassumption].
  apply R_trans with g1; [exact H1 |]. apply R_trans with g2; [exact H2 |].
  unfold routeStep. destruct route as [rt |]; [| apply R_refl].
  simpl in IHroute.
  destruct (route_path rt) as [p | ps].
  - apply forEach_invariant. eapply Forall_impl; [exact IHroute |].
    intros l Hl g'. apply Hl.
  - destruct (find (hasSchema g2) (route_stack rt)) as [l |] eqn:Hfind;
      [| apply R_refl].
    apply find_some in Hfind as [Hin _].
    rewrite List.Forall_forall in IHroute. specialize (IHroute l Hin).
    apply forEach_invariant. apply List.Forall_forall. intros p _ g'.
    apply IHroute.
Qed.
End Invariants.

(** ** The metadata step *)

(** A path that is no name of [Object.prototype], or that [paths] has
    as its own, is not read from an inherited object. *)
Lemma inheritsPathItem_plain d key :
  inheritedName key = false -> inheritsPathItem d key = false.
Proof. intros H. unfold inheritsPathItem. now rewrite H, andb_false_r. Qed.

Lemma inheritsPathItem_own d key item :
  doc_paths d !! key = Some item -> inheritsPathItem d key = false.
Proof.
  intros H. unfold inheritsPathItem.
  rewrite bool_decide_eq_false_2; [reflexivity | congruence].
Qed.

Lemma getParams_no_schema parse path layer g :
  schemaMap g !! handle_ref (layer_handle layer) = None ->
  getParams parse path layer g = Returned g.
Proof. intros H. unfold getParams. now rewrite H. Qed.

Lemma getParams_records parse path layer g schema m tokens :
  schemaMap g !! handle_ref (layer_handle layer) = Some schema ->
  layer_method layer = Some m ->
  isHTTPMethod (JsString.toLowerCase m) = true ->
  parse (stripBasePath (basePath g) path) = Some tokens ->
  existsb isWildcard (parseKeys tokens) = false ->
  inheritsPathItem (doc g)
    (toOpenAPIPath (stripBasePath (basePath g) path)) = false ->
  getParams parse path layer g =
  Returned
    (recorded g (handle_ref (layer_handle layer))
       (toOpenAPIPath (stripBasePath (basePath g) path))
       (JsString.toLowerCase m)
       (withParameters schema (resolveParams schema (parseKeys tokens)))).
Proof.
  intros Hschema Hmethod Hverb Hparse Hwild Hown. unfold getParams.
  now rewrite Hschema, Hmethod, Hverb, Hparse, Hwild, Hown.
Qed.

Lemma getParams_wildcard parse path layer g schema m tokens :
  schemaMap g !! handle_ref (layer_handle layer) = Some schema ->
  layer_method layer = Some m ->
  isHTTPMethod (JsString.toLowerCase m) = true ->
  parse (stripBasePath (basePath g) path) = Some tokens ->
  existsb isWildcard (parseKeys tokens) = true ->
  getParams parse path layer g =
  Thrown (newWildcardPathError (stripBasePath (basePath g) path)
            (layer_name layer)) g.
Proof.
  intros Hschema Hmethod Hverb Hparse Hwild. unfold getParams.
  now rewrite Hschema, Hmethod, Hverb, Hparse, Hwild.
Qed.

Lemma operationAt_setOperation d path method operation :
  operationAt (setOperation path method operation d) path method
  = Some operation.
Proof.
  unfold operationAt, setOperation; simpl.
  rewrite lookup_insert_eq. simpl. apply lookup_insert_eq.
Qed.

Lemma doc_paths_setOperation_ne d path method operation key :
  key <> path ->
  doc_paths (setOperation path method operation d) !! key = doc_paths d !! key.
Proof. intros H. unfold setOperation; simpl. now apply lookup_insert_ne. Qed.

(** The layers Express builds for a route and for its handlers. *)
Lemma recurseStack_handlerLayer parse path ref method g :
  recurseStack parse path (Examples.handlerLayer ref method) g
  = getParams parse path (Examples.handlerLayer ref method) g.
Proof.
  rewrite recurseStack_unfold.
  destruct (getParams _ _ _ g); reflexivity.
Qed.

Lemma recurseStack_routeLayer parse path dispatch p stack g :
  schemaMap g !! dispatch = None ->
  recurseStack parse path (Examples.routeLayer dispatch (PathString p) stack) g
  = forEach (recurseStack parse (path ++ p)) stack g.
Proof.
  intros H. rewrite recurseStack_unfold, getParams_no_schema by exact H.
  reflexivity.
Qed.

(** ** Layers the metadata step passes over *)

(** C10. A layer whose handle has registered metadata but whose method,
    lowercased, is not one of the eight HTTP verbs is passed over:
    [getParams] returns, and the document and both maps are as before. *)
Theorem getParams_unsupported_method parse path layer g schema m :
  schemaMap g !! handle_ref (layer_handle layer) = Some schema ->
  layer_method layer = Some m ->
  isHTTPMethod (JsString.toLowerCase m) = false ->
  getParams parse path layer g = Returned g.
Proof.
  intros Hschema Hmethod Hverb. unfold getParams.
  now rewrite Hschema, Hmethod, Hverb.
Qed.

Lemma getParams_unsupported_method_witness :
  getParams PathToRegexp.parse "/search"
    (Examples.handlerLayer 1 "M-SEARCH")
    Examples.documented
  = Returned Examples.documented.
Proof.
  apply (getParams_unsupported_method _ _ _ _ Examples.okOperation "M-SEARCH");
    reflexivity.
Defined.

(** ** Mounted routers *)

Lemma sameRegistrations_refl g : sameRegistrations g g.
Proof. now repeat split. Qed.

Lemma sameRegistrations_trans g1 g2 g3 :
  sameRegistrations g1 g2 -> sameRegistrations g2 g3 ->
  sameRegistrations g1 g3.
Proof.
  intros (H1 & H2 & H3) (H4 & H5 & H6). repeat split; congruence.
Qed.

Lemma getParams_sameRegistrations parse path layer g :
  sameRegistrations g (final (getParams parse path layer g)).
Proof.
  unfold getParams.
  destruct (schemaMap g !! _) as [schema |] eqn:Hschema;
    [| apply sameRegistrations_refl].
  destruct (layer_method layer); [| apply sameRegistrations_refl].
  destruct (negb _); [apply sameRegistrations_refl |].
  destruct (parse _); [| apply sameRegistrations_refl].
  destruct (existsb _ _); [apply sameRegistrations_refl |].
  destruct (inheritsPathItem _ _); [apply sameRegistrations_refl |].
  repeat split; simpl. apply dom_insert_lookup_L. now rewrite Hschema.
Qed.

Lemma recurseStack_sameRegistrations parse path layer g :
  sameRegistrations g (final (recurseStack parse path layer g)).
Proof.
  apply recurseStack_invariant;
    auto using sameRegistrations_refl, getParams_sameRegistrations.
  exact sameRegistrations_trans.
Qed.

Lemma forEach_sameRegistrations {A} (f : A -> Generator -> Outcome) xs g :
  (forall x g, sameRegistrations g (final (f x g))) ->
  sameRegistrations g (final (forEach f xs g)).
Proof.
  intros Hf. apply forEach_invariant;
    auto using sameRegistrations_refl.
  - exact sameRegistrations_trans.
  - apply List.Forall_forall. intros x _. apply Hf.
Qed.

Lemma mountStep_sameRegistrations parse path layer g :
  sameRegistrations g (final (mountStep parse path layer g)).
Proof.
  unfold mountStep.
  destruct (String.eqb _ _); [| apply sameRegistrations_refl].
  destruct (layer_handle layer) as [ref | r]; [apply sameRegistrations_refl |].
  destruct (routerMap g !! router_ref r) as [rp |];
    [| apply sameRegistrations_refl].
  destruct (JsString.truthy rp); [| apply sameRegistrations_refl].
  apply forEach_sameRegistrations. intros l g'.
  apply recurseStack_sameRegistrations.
Qed.

Lemma Reaches_sameRegistrations parse path layer g path' layer' g' :
  Reaches parse path layer g path' layer' g' -> sameRegistrations g g'.
Proof.
  induction 1 as
    [ path layer g
    | path layer g g1 r rp before l after g2 path' layer' g'
        Hparams _ _ _ _ _ Hbefore _ IH
    | path layer g g1 g2 rt p before l after g3 path' layer' g'
        Hparams Hmount _ _ _ Hbefore _ IH
    | path layer g g1 g2 rt ps l before p after g3 path' layer' g'
        Hparams Hmount _ _ _ _ Hbefore _ IH ].
  - apply sameRegistrations_refl.
  - pose proof (getParams_sameRegistrations parse path layer g) as H1.
    rewrite Hparams in H1.
    pose proof (forEach_sameRegistrations
                  (recurseStack parse (path ++ rp)) before g1
                  (fun x g => recurseStack_sameRegistrations parse _ x g)) as H2.
    rewrite Hbefore in H2.
    eauto using sameRegistrations_trans.
  - pose proof (getParams_sameRegistrations parse path layer g) as H1.
    rewrite Hparams in H1.
    pose proof (mountStep_sameRegistrations parse path layer g1) as H2.
    rewrite Hmount in H2.
    pose proof (forEach_sameRegistrations
                  (recurseStack parse (path ++ p)) before g2
                  (fun x g => recurseStack_sameRegistrations parse _ x g)) as H3.
    rewrite Hbefore in H3.
    eauto using sameRegistrations_trans.
  - pose proof (getParams_sameRegistrations parse path layer g) as H1.
    rewrite Hparams in H1.
    pose proof (mountStep_sameRegistrations parse path layer g1) as H2.
    rewrite Hmount in H2.
    pose proof (forEach_sameRegistrations
                  (fun p => recurseStack parse (path ++ p) l) before g2
                  (fun p g => recurseStack_sameRegistrations parse _ l g)) as H3.
    rewrite Hbefore in H3.
    eauto using sameRegistrations_trans.
Qed.

Lemma Visits_sameRegistrations parse root g0 path layer g :
  Visits parse root g0 path layer g -> sameRegistrations g0 g.
Proof.
  intros [before l after g1 _ Hbefore Hreach].
  pose proof (forEach_sameRegistrations (recurseStack parse "") before g0
                (fun x g => recurseStack_sameRegistrations parse _ x g)) as H1.
  rewrite Hbefore in H1.
  eauto using sameRegistrations_trans, Reaches_sameRegistrations.
Qed.

(** An exception thrown by a call the walk comes to make is thrown by
    the walk: nothing catches it. *)
Lemma Reaches_thrown parse path layer g path' layer' g' e gt :
  Reaches parse path layer g path' layer' g' ->
  recurseStack parse path' layer' g' = Thrown e gt ->
  recurseStack parse path layer g = Thrown e gt.
Proof.
  induction 1 as
    [ path layer g
    | path layer g g1 r rp before l after g2 path' layer' g'
        Hparams Hname Hhandle Hreg Htruthy Hstack Hbefore _ IH
    | path layer g g1 g2 rt p before l after g3 path' layer' g'
        Hparams Hmount Hroute Hpath Hstack Hbefore _ IH
    | path layer g g1 g2 rt ps l before p after g3 path' layer' g'
        Hparams Hmount Hroute Hpath Hfind Hps Hbefore _ IH ];
    intros Hthrown; [exact Hthrown | | |]; specialize (IH Hthrown);
    rewrite recurseStack_unfold, Hparams; simpl.
  - unfold mountStep. rewrite Hname, Hhandle, Hreg, Htruthy, Hstack. simpl.
    now rewrite (forEach_thrown _ before l after g1 g2 e gt).
  - rewrite Hmount. simpl. unfold routeStep. rewrite Hroute, Hpath, Hstack.
    now apply forEach_thrown with g3.
  - rewrite Hmount. simpl. unfold routeStep. rewrite Hroute, Hpath, Hfind, Hps.
    now apply forEach_thrown with g3.
Qed.

Lemma Visits_thrown parse root g0 path layer g e gt :
  Visits parse root g0 path layer g ->
  recurseStack parse path layer g = Thrown e gt ->
  initializeDoc parse (Some root) g0 = Thrown e gt.
Proof.
  intros [before l after g1 Hstack Hbefore Hreach] Hthrown. simpl.
  rewrite Hstack. apply forEach_thrown with g1; [exact Hbefore |].
  eapply Reaches_thrown; eassumption.
Qed.




(** ** Wildcard paths *)

Lemma wildcard_key_iff tokens :
  existsb isWildcard (parseKeys tokens) = true <->
  exists depth name, TokenAt tokens depth name KWildcard.
Proof.
  rewrite existsb_exists. split.
  - intros ([name [] required] & Hin & Hwild); [discriminate |].
    apply processTokens_spec in Hin as [[] | (d & H & _)]. now exists d, name.
  - intros (d & name & H).
    exists (mkKeys name KWildcard (requiredAt false d)). split; [| reflexivity].
    apply processTokens_spec. right. now exists d.
Qed.




(** ** How a mounted router is recognised *)

(** C9, as the code has it. A layer whose handle is a router, with a
    registered path, is not walked as a mount when the layer is not
    named [router]: the route beneath it is not recorded and nothing is
    thrown. *)
Lemma renamed_mount_is_not_walked :
  isRouter (layer_handle Examples.renamedMount) = true
  /\ recurseStack PathToRegexp.parse "" Examples.renamedMount
       Examples.mounted
     = Returned Examples.mounted
  /\ (exists g',
        recurseStack PathToRegexp.parse ""
          (Examples.mountLayer Examples.childRouter) Examples.mounted
        = Returned g'
        /\ is_Some (operationAt (doc g') "/users/profile" "get")).
Proof.
  split; [reflexivity |]. split; [reflexivity |].
  eexists. split; [reflexivity |]. vm_compute. eauto.
Qed.

(** C9, amended. A layer is walked as a mounted router exactly when it
    is named [router] and its handle exposes a stack: then its stack is
    walked under the registered path, or [RouterRegistrationError] is
    thrown when no path (or the empty path) is registered; any other
    layer goes on to its route at once. *)
Theorem recurseStack_mount_check parse path layer g :
  recurseStack parse path layer g =
  do g1 <- getParams parse path layer g;
  if String.eqb (layer_name layer) "router" && isRouter (layer_handle layer)
  then
    match routerMap g1 !! handle_ref (layer_handle layer) with
    | Some (String c rest) =>
        do g2 <- forEach (recurseStack parse (path ++ String c rest))
                   (handle_layers (layer_handle layer)) g1;
        routeStep parse path (layer_route layer) g2
    | _ => Thrown (newRouterRegistrationError layer path) g1
    end
  else routeStep parse path (layer_route layer) g1.
Proof.
  rewrite recurseStack_unfold.
  destruct (getParams parse path layer g) as [g1 | e g1 | n mt g1];
    simpl; [| reflexivity | reflexivity].
  unfold mountStep.
  destruct (String.eqb (layer_name layer) "router"); simpl; [| reflexivity].
  destruct (layer_handle layer) as [ref | r]; simpl; [reflexivity |].
  destruct (routerMap g1 !! router_ref r) as [[| c rest] |]; reflexivity.
Qed.

(** ** The base path *)

Lemma startsWith_append base rest :
  JsString.startsWith (base ++ rest) base = true.
Proof.
  induction base as [| c base IH]; simpl; [reflexivity |].
  now rewrite Ascii.eqb_refl.
Qed.

Lemma drop_append base rest :
  JsString.drop (String.length base) (base ++ rest) = rest.
Proof. induction base as [| c base IH]; simpl; [reflexivity | exact IH]. Qed.

(** A base path that opens the accumulated path is taken off it. *)
Lemma stripBasePath_prefix base rest :
  base <> "" -> stripBasePath base (base ++ rest) = rest.
Proof.
  intros Hbase. unfold stripBasePath.
  rewrite startsWith_append.
  destruct base as [| c base]; [contradiction |].
  cbn [JsString.truthy andb].
  assert (Hfirst : forall s p,
             JsString.startsWith s p = true ->
             JsString.removeFirst s p = JsString.drop (String.length p) s).
  { intros s p H. destruct s; simpl; now rewrite H. }
  rewrite Hfirst by apply startsWith_append.
  apply drop_append.
Qed.

(** C3, as the code has it. Without [servers] the base path is [/],
    which opens every accumulated path and is taken off: the route
    [/users/:id] is recorded under [users/{id}], and the document has
    nothing under [/users/{id}]. *)
Lemma users_id_not_recorded_with_leading_slash :
  constructor (Examples.baseDoc None) = inr Examples.noServer
  /\ exists g',
       initializeDoc PathToRegexp.parse (Some Examples.usersRouter)
         (addSchema 1 Examples.okOperation Examples.noServer)
       = Returned g'
       /\ doc_paths (doc g') !! "/users/{id}" = None
       /\ is_Some (operationAt (doc g') "users/{id}" "get").
Proof.
  split; [reflexivity |]. eexists. split; [reflexivity |].
  split; vm_compute; eauto.
Qed.

(** C3, amended. Without [servers] (base path [/]), a handler
    registered with [{responses: {"200": {description: "ok"}}}] and
    bound by [get] at [/users/:id] is recorded under [users/{id}], the
    leading slash taken off, and the first parameter of its operation
    is [{name: "id", in: "path", required: true, schema: {type:
    "string"}}]. *)
Theorem users_id_recorded_without_leading_slash
    parse root dispatch handler g :
  basePath g = "/" ->
  schemaMap g !! handler = Some Examples.okOperation ->
  schemaMap g !! dispatch = None ->
  parse "users/:id" = Some [TText "users/"; TParam "id"] ->
  exists g',
    initializeDoc parse
      (Some (mkRouter root
               [Examples.routeLayer dispatch (PathString "/users/:id")
                  [Examples.handlerLayer handler "get"]])) g
    = Returned g'
    /\ operationAt (doc g') "users/{id}" "get" ≫= op_parameters
       = Some [PObject
                 {| param_name := "id";
                    param_in := "path";
                    param_required := Some true;
                    param_schema := Some (JObj [("type", JStr "string")]);
                    param_description := None;
                    param_more := [] |}].
Proof.
  intros Hbase Hschema Hdispatch Hparse.
  eexists. split.
  - unfold initializeDoc. cbn [router_stack forEach].
    rewrite recurseStack_routeLayer by exact Hdispatch.
    cbn [forEach]. rewrite recurseStack_handlerLayer.
    rewrite (getParams_records parse _ _ g Examples.okOperation "get"
               [TText "users/"; TParam "id"]);
      [reflexivity | exact Hschema | reflexivity | reflexivity
      | now rewrite Hbase | reflexivity
      | rewrite Hbase; now apply inheritsPathItem_plain].
  - rewrite Hbase.
    change (toOpenAPIPath (stripBasePath "/" ("" ++ "/users/:id")))
      with "users/{id}".
    change (JsString.toLowerCase "get") with "get".
    unfold recorded; simpl. now rewrite operationAt_setOperation.
Qed.

Lemma users_id_recorded_without_leading_slash_witness :
  exists g',
    initializeDoc PathToRegexp.parse (Some Examples.usersRouter)
      (addSchema 1 Examples.okOperation Examples.noServer)
    = Returned g'
    /\ operationAt (doc g') "users/{id}" "get" ≫= op_parameters
       = Some [PObject
                 {| param_name := "id";
                    param_in := "path";
                    param_required := Some true;
                    param_schema := Some (JObj [("type", JStr "string")]);
                    param_description := None;
                    param_more := [] |}].
Proof.
  apply (users_id_recorded_without_leading_slash PathToRegexp.parse 10 11 1
           (addSchema 1 Examples.okOperation Examples.noServer));
    reflexivity.
Defined.

(** X15. With [/api/v1] as the base path, a layer reached under an
    accumulated path [/api/v1] followed by [rest] is recorded under
    [rest] (its parameters in braces), and no other key of the document
    changes, provided the path item is not read from an object that
    [paths] inherits; so a route at [/api/v1/test] appears under
    [/test], not under [/api/v1/test]. *)
Theorem getParams_strips_base_path parse g layer rest schema m tokens :
  basePath g = "/api/v1" ->
  schemaMap g !! handle_ref (layer_handle layer) = Some schema ->
  layer_method layer = Some m ->
  isHTTPMethod (JsString.toLowerCase m) = true ->
  parse rest = Some tokens ->
  existsb isWildcard (parseKeys tokens) = false ->
  inheritsPathItem (doc g) (toOpenAPIPath rest) = false ->
  exists g' operation,
    getParams parse ("/api/v1" ++ rest) layer g = Returned g'
    /\ operationAt (doc g') (toOpenAPIPath rest) (JsString.toLowerCase m)
       = Some operation
    /\ forall key, key <> toOpenAPIPath rest ->
                   doc_paths (doc g') !! key = doc_paths (doc g) !! key.
Proof.
  intros Hbase Hschema Hmethod Hverb Hparse Hwild Hown.
  assert (Hstrip : stripBasePath (basePath g) ("/api/v1" ++ rest) = rest).
  { rewrite Hbase. now apply stripBasePath_prefix. }
  do 2 eexists. split; [| split].
  - apply (getParams_records parse _ layer g schema m tokens); auto;
      now rewrite Hstrip.
  - rewrite Hstrip. apply operationAt_setOperation.
  - intros key Hkey. rewrite Hstrip. simpl.
    now apply doc_paths_setOperation_ne.
Qed.

Lemma getParams_strips_base_path_witness :
  constructor (Examples.baseDoc (Some [mkServer "/api/v1"]))
  = inr Examples.apiV1
  /\ exists g',
       getParams PathToRegexp.parse "/api/v1/test"
         (Examples.handlerLayer 1 "get") Examples.documented
       = Returned g'
       /\ is_Some (operationAt (doc g') "/test" "get")
       /\ doc_paths (doc g') !! "/api/v1/test" = None.
Proof.
  split; [reflexivity |].
  destruct (getParams_strips_base_path PathToRegexp.parse Examples.documented
              (Examples.handlerLayer 1 "get") "/test" Examples.okOperation
              "get" [TText "/test"]
              eq_refl eq_refl eq_refl eq_refl eq_refl eq_refl eq_refl)
    as (g' & operation & Hget & Hat & Hother).
  exists g'. split; [exact Hget |]. split.
  - exists operation. exact Hat.
  - rewrite (Hother "/api/v1/test"); [reflexivity | discriminate].
Defined.

(** C6, on the code. Under the router registered at [/api/v1], the
    route path [__proto__] gives the accumulated path
    [/api/v1__proto__], which starts with the base path; the base path
    taken off, [this.doc.paths["__proto__"]] finds no own property and
    reads [Object.prototype], so [??] does not make a path item: the
    operation is written as the property [get] of [Object.prototype],
    and the document has no entry for the route. *)
Theorem getParams_strips_to_inherited_name :
  JsString.startsWith "/api/v1__proto__" "/api/v1" = true
  /\ stripBasePath "/api/v1" "/api/v1__proto__" = "__proto__"
  /\ getParams PathToRegexp.parse "/api/v1__proto__"
       (Examples.handlerLayer 1 "get") Examples.documented
     = Polluted "__proto__" "get" Examples.documented
  /\ initializeDoc PathToRegexp.parse (Some Examples.protoParent)
       (registerRouter 90 "/api/v1" Examples.documented)
     = Polluted "__proto__" "get"
         (registerRouter 90 "/api/v1" Examples.documented)
  /\ doc_paths (doc (registerRouter 90 "/api/v1" Examples.documented)) = ∅.
Proof. repeat split; reflexivity. Qed.

(** ** Parameters resolved against the schema *)

(** What [find] returns declares the key as a path parameter. *)
Lemma findDeclared_some schema k entry :
  findDeclared schema k = Some entry ->
  exists p, entry = PObject p
            /\ param_name p = key_name k /\ param_in p = "path".
Proof.
  unfold findDeclared. destruct (op_parameters schema) as [ps |]; [| easy].
  intros H. apply find_some in H as [_ H].
  destruct entry as [p | ref]; [| discriminate]. simpl in H.
  apply andb_prop in H as [Hname Hin].
  apply String.eqb_eq in Hname, Hin. eauto.
Qed.

(** A resolved parameter bears the name of its key, lies in the path,
    and has [required] and [schema] set. *)
Lemma assignParam_shape schema k :
  let px := assignParam (defaultParam k) (findDeclared schema k) in
  param_name px = key_name k /\ param_in px = "path"
  /\ is_Some (param_required px) /\ is_Some (param_schema px).
Proof.
  simpl. destruct (findDeclared schema k) as [entry |] eqn:Hfind.
  - apply findDeclared_some in Hfind as (p & -> & Hname & Hin). simpl.
    repeat split; auto.
    + destruct (param_required p); simpl; eauto.
    + destruct (param_schema p); simpl; eauto.
  - simpl. repeat split; eauto.
Qed.

(** Assigning a resolved parameter to the defaults of its key gives it
    back. *)
Lemma assignParam_resolved k px :
  is_Some (param_required px) -> is_Some (param_schema px) ->
  assignParam (defaultParam k) (Some (PObject px)) = px.
Proof.
  intros [r Hr] [sc Hsc]. destruct px as [n i req sch descr more].
  simpl in *. subst. simpl. f_equal. now destruct descr.
Qed.

(** ** The [required] flag of a recorded parameter *)

Lemma assignParam_required schema k :
  param_required (assignParam (defaultParam k) (findDeclared schema k))
  = Some (default (key_required k) (declaredRequired schema k)).
Proof.
  unfold declaredRequired.
  destruct (findDeclared schema k) as [[p | ref] |]; simpl; try reflexivity.
  now destruct (param_required p).
Qed.

Lemma resolveParams_required schema keys :
  Forall2 (fun k p =>
             param_name p = key_name k
             /\ param_required p
                = Some (default (key_required k) (declaredRequired schema k)))
    keys (resolveParams schema keys).
Proof.
  unfold resolveParams. induction keys as [| k keys IH]; simpl; constructor.
  - split; [exact (proj1 (assignParam_shape schema k)) |].
    apply assignParam_required.
  - exact IH.
Qed.

(** C4, as the code has it. A handler registered without parameters
    and bound to [/a/:id] and to [/b{/:id}]: the first route writes the
    parameter [id], required, back as the handler's schema, and the
    second route, whose marker lies in a group, finds it declared
    there: the parameter recorded under [/b{/{id}}] is required. *)
Lemma grouped_parameter_recorded_required :
  PathToRegexp.parse "/b{/:id}"
  = Some [TText "/b"; TGroup [TText "/"; TParam "id"]]
  /\ TokenAt [TText "/b"; TGroup [TText "/"; TParam "id"]] 1 "id" KParam
  /\ exists g' op p,
       initializeDoc PathToRegexp.parse (Some Examples.optionalRouter)
         Examples.documented
       = Returned g'
       /\ operationAt (doc g') "/b{/{id}}" "get" = Some op
       /\ op_parameters op = Some [PObject p]
       /\ param_name p = "id"
       /\ param_required p = Some true.
Proof.
  split; [reflexivity |]. split.
  - apply at_group with [TText "/"; TParam "id"]; [right; now left |].
    apply at_param. right; now left.
  - do 3 eexists. split; [reflexivity |]. split; [reflexivity |].
    split; [reflexivity |]. split; reflexivity.
Qed.

(** C4, amended. The keys of a path are its parameter and wildcard
    tokens, each required exactly when its token lies outside every
    group, at whatever depth the groups are nested. The operation
    [getParams] records has one parameter for each key, of its name,
    and that parameter has the [required] of the key unless the schema
    the handler has at that moment, registered or written back by an
    earlier route of the walk, declares a path parameter of that name
    with a [required] of its own, which then stands. *)
Theorem getParams_required_unless_declared
    parse path layer g schema m tokens :
  schemaMap g !! handle_ref (layer_handle layer) = Some schema ->
  layer_method layer = Some m ->
  isHTTPMethod (JsString.toLowerCase m) = true ->
  parse (stripBasePath (basePath g) path) = Some tokens ->
  existsb isWildcard (parseKeys tokens) = false ->
  inheritsPathItem (doc g)
    (toOpenAPIPath (stripBasePath (basePath g) path)) = false ->
  (forall name type required,
      In (mkKeys name type required) (parseKeys tokens) <->
      exists depth, TokenAt tokens depth name type
                    /\ required = (depth =? 0)%nat)
  /\ exists g' op ps,
       getParams parse path layer g = Returned g'
       /\ operationAt (doc g')
            (toOpenAPIPath (stripBasePath (basePath g) path))
            (JsString.toLowerCase m) = Some op
       /\ op_parameters op = Some (map PObject ps)
       /\ Forall2
            (fun k p =>
               param_name p = key_name k
               /\ param_required p
                  = Some (default (key_required k)
                            (declaredRequired schema k)))
            (parseKeys tokens) ps.
Proof.
  intros Hschema Hmethod Hverb Hparse Hwild Hown.
  split; [apply parseKeys_TokenAt |].
  eexists _, _, (resolveParams schema (parseKeys tokens)).
  split; [now apply (getParams_records parse path layer g schema m tokens) |].
  split; [apply operationAt_setOperation |].
  split; [reflexivity |].
  apply resolveParams_required.
Qed.

Lemma getParams_required_unless_declared_witness :
  exists g' op ps,
    getParams PathToRegexp.parse "/b{/:id}" (Examples.handlerLayer 1 "get")
      Examples.documented
    = Returned g'
    /\ operationAt (doc g') "/b{/{id}}" "get" = Some op
    /\ op_parameters op = Some (map PObject ps)
    /\ Forall2
         (fun k p =>
            param_name p = key_name k
            /\ param_required p
               = Some (default (key_required k)
                         (declaredRequired Examples.okOperation k)))
         [mkKeys "id" KParam false] ps.
Proof.
  apply (proj2 (getParams_required_unless_declared PathToRegexp.parse
                  "/b{/:id}" (Examples.handlerLayer 1 "get")
                  Examples.documented Examples.okOperation "get"
                  [TText "/b"; TGroup [TText "/"; TParam "id"]]
                  eq_refl eq_refl eq_refl eq_refl eq_refl eq_refl)).
Defined.

(** ** Routes bound to several paths *)

Lemma recurseStack_fan_out parse path layer g g1 g2 rt ps :
  getParams parse path layer g = Returned g1 ->
  mountStep parse path layer g1 = Returned g2 ->
  layer_route layer = Some rt ->
  route_path rt = PathArray ps ->
  recurseStack parse path layer g =
  match List.find (hasSchema g2) (route_stack rt) with
  | Some schemaLayer =>
      forEach (fun p => recurseStack parse (path ++ p) schemaLayer) ps g2
  | None => Returned g2
  end.
Proof.
  intros Hparams Hmount Hroute Hpath.
  rewrite recurseStack_unfold, Hparams. simpl. rewrite Hmount. simpl.
  unfold routeStep. now rewrite Hroute, Hpath.
Qed.

Lemma find_app_first {A} (f : A -> bool) before x after :
  Forall (fun y => f y = false) before -> f x = true ->
  List.find f (before ++ x :: after) = Some x.
Proof.
  induction 1 as [| y ys Hy _ IH]; intros Hx; simpl.
  - now rewrite Hx.
  - rewrite Hy. now apply IH.
Qed.

Lemma hasSchema_true g l schema :
  schemaMap g !! handle_ref (layer_handle l) = Some schema ->
  hasSchema g l = true.
Proof. intros H. unfold hasSchema. rewrite H. now apply bool_decide_eq_true. Qed.

Lemma hasSchema_false g l :
  schemaMap g !! handle_ref (layer_handle l) = None ->
  hasSchema g l = false.
Proof.
  intros H. unfold hasSchema. rewrite H.
  apply bool_decide_eq_false. now intros [? ?].
Qed.

(** The layer [find] comes upon is the first whose handle has a schema,
    the layers before it passed over. *)
Lemma find_first_documented g before l after schema :
  Forall (fun l' => schemaMap g !! handle_ref (layer_handle l') = None)
    before ->
  schemaMap g !! handle_ref (layer_handle l) = Some schema ->
  List.find (hasSchema g) (before ++ l :: after) = Some l.
Proof.
  intros Hbefore Hl. apply find_app_first.
  - eapply Forall_impl; [exact Hbefore |]. intros l' Hl'.
    now apply hasSchema_false.
  - now apply hasSchema_true with schema.
Qed.

Lemma recurseStack_fan_out_first
    parse path layer g g1 g2 rt ps before l after schema :
  getParams parse path layer g = Returned g1 ->
  mountStep parse path layer g1 = Returned g2 ->
  layer_route layer = Some rt ->
  route_path rt = PathArray ps ->
  route_stack rt = before ++ l :: after ->
  Forall (fun l' => schemaMap g2 !! handle_ref (layer_handle l') = None)
    before ->
  schemaMap g2 !! handle_ref (layer_handle l) = Some schema ->
  recurseStack parse path layer g =
  forEach (fun p => recurseStack parse (path ++ p) l) ps g2.
Proof.
  intros Hparams Hmount Hroute Hpath Hstack Hbefore Hl.
  rewrite (recurseStack_fan_out parse path layer g g1 g2 rt ps) by assumption.
  now rewrite Hstack, (find_first_documented g2 before l after schema).
Qed.

(** C5, as the code has it. Without [servers] the base path [/] is
    taken off the accumulated paths: the handler bound to [/a/:x] and
    [/b/:x] is recorded under [a/{x}] and [b/{x}], and the document has
    nothing under [/a/{x}] nor under [/b/{x}]. *)
Lemma fan_out_without_server_drops_slash :
  exists g',
    initializeDoc PathToRegexp.parse (Some Examples.fanOutRouter)
      (addSchema 1 Examples.findOperation Examples.noServer)
    = Returned g'
    /\ doc_paths (doc g') !! "/a/{x}" = None
    /\ doc_paths (doc g') !! "/b/{x}" = None
    /\ is_Some (operationAt (doc g') "a/{x}" "get")
    /\ is_Some (operationAt (doc g') "b/{x}" "get").
Proof.
  eexists. split; [reflexivity |].
  repeat split; vm_compute; eauto.
Qed.

(** C5, amended. For a route whose path is an array, the walk takes the
    first layer of the route's stack whose handle has a schema, the
    layers before it passed over, and walks that layer alone, once for
    each path of the array, under the accumulated path followed by it.
    So a handler bound to [/a/:x] and [/b/:x] is recorded twice, under
    the two paths with the base path taken off and the parameter in
    braces ([/a/{x}] and [/b/{x}] where the base path opens neither
    path, [a/{x}] and [b/{x}] under the base path [/]), each time with
    the summary and description of its schema and the same parameter
    named [x]. *)
Theorem recurseStack_fan_out_paths parse :
  (forall path layer g g1 g2 rt ps before l after schema,
      getParams parse path layer g = Returned g1 ->
      mountStep parse path layer g1 = Returned g2 ->
      layer_route layer = Some rt ->
      route_path rt = PathArray ps ->
      route_stack rt = before ++ l :: after ->
      Forall (fun l' => schemaMap g2 !! handle_ref (layer_handle l') = None)
        before ->
      schemaMap g2 !! handle_ref (layer_handle l) = Some schema ->
      recurseStack parse path layer g =
      forEach (fun p => recurseStack parse (path ++ p) l) ps g2)
  /\ (forall dispatch handler m schema g before after ta tb,
         schemaMap g !! dispatch = None ->
         Forall (fun l' => schemaMap g !! handle_ref (layer_handle l') = None)
           before ->
         schemaMap g !! handler = Some schema ->
         isHTTPMethod (JsString.toLowerCase m) = true ->
         parse (stripBasePath (basePath g) "/a/:x") = Some ta ->
         parse (stripBasePath (basePath g) "/b/:x") = Some tb ->
         parseKeys ta = [mkKeys "x" KParam true] ->
         parseKeys tb = [mkKeys "x" KParam true] ->
         inheritedName
           (toOpenAPIPath (stripBasePath (basePath g) "/a/:x")) = false ->
         inheritedName
           (toOpenAPIPath (stripBasePath (basePath g) "/b/:x")) = false ->
         toOpenAPIPath (stripBasePath (basePath g) "/a/:x")
         <> toOpenAPIPath (stripBasePath (basePath g) "/b/:x") ->
         exists g' px,
           recurseStack parse ""
             (Examples.routeLayer dispatch (PathArray ["/a/:x"; "/b/:x"])
                (before ++ Examples.handlerLayer handler m :: after)) g
           = Returned g'
           /\ param_name px = "x" /\ param_in px = "path"
           /\ forall key,
                In key [toOpenAPIPath (stripBasePath (basePath g) "/a/:x");
                        toOpenAPIPath (stripBasePath (basePath g) "/b/:x")] ->
                exists op,
                  operationAt (doc g') key (JsString.toLowerCase m) = Some op
                  /\ op_summary op = op_summary schema
                  /\ op_description op = op_description schema
                  /\ op_parameters op = Some [PObject px]).
Proof.
  split; [intros; now apply recurseStack_fan_out_first
                    with g1 rt before after schema |].
  intros dispatch handler m schema g before after ta tb
    Hdispatch Hbefore Hschema Hverb Hpa Hpb Hka Hkb Hna Hnb Hne.
  set (kx := mkKeys "x" KParam true) in *.
  set (px := assignParam (defaultParam kx) (findDeclared schema kx)).
  set (op := withParameters schema [px]).
  set (lm := JsString.toLowerCase m) in *.
  set (keyA := toOpenAPIPath (stripBasePath (basePath g) "/a/:x")) in *.
  set (keyB := toOpenAPIPath (stripBasePath (basePath g) "/b/:x")) in *.
  set (ga := recorded g handler keyA lm op).
  set (gb := recorded ga handler keyB lm op).
  destruct (assignParam_shape schema kx) as (Hname & Hin & Hreq & Hsch).
  fold px in Hname, Hin, Hreq, Hsch. simpl in Hname.
  assert (Hagain : resolveParams op [kx] = [px]).
  { unfold resolveParams, findDeclared; simpl.
    rewrite Hname, Hin. simpl. f_equal.
    exact (assignParam_resolved kx px Hreq Hsch). }
  exists gb, px. split; [| split; [exact Hname | split; [exact Hin |]]].
  - rewrite (recurseStack_fan_out_first parse "" _ g g g
               (mkRoute (PathArray ["/a/:x"; "/b/:x"])
                  (before ++ Examples.handlerLayer handler m :: after))
               ["/a/:x"; "/b/:x"] before
               (Examples.handlerLayer handler m) after schema);
      [| now apply getParams_no_schema | reflexivity | reflexivity
       | reflexivity | reflexivity | exact Hbefore | exact Hschema].
    cbn [forEach]. rewrite recurseStack_handlerLayer.
    change ("" ++ "/a/:x")%string with "/a/:x".
    change ("" ++ "/b/:x")%string with "/b/:x".
    rewrite (getParams_records parse _ _ g schema m ta);
      [| exact Hschema | reflexivity | exact Hverb | exact Hpa
       | now rewrite Hka | now apply inheritsPathItem_plain].
    cbn [andThen]. rewrite Hka.
    change (handle_ref (layer_handle (Examples.handlerLayer handler m)))
      with handler.
    change (resolveParams schema [kx]) with [px].
    fold op lm keyA ga. rewrite recurseStack_handlerLayer.
    rewrite (getParams_records parse _ _ ga op m tb);
      [| apply lookup_insert_eq | reflexivity | exact Hverb | exact Hpb
       | now rewrite Hkb | now apply inheritsPathItem_plain].
    simpl basePath. rewrite Hkb, Hagain. reflexivity.
  - intros key [<- | [<- | []]]; exists op; repeat split.
    + unfold gb, recorded, operationAt; simpl.
      rewrite lookup_insert_ne by congruence.
      rewrite lookup_insert_eq. simpl. apply lookup_insert_eq.
    + apply operationAt_setOperation.
Qed.

Lemma recurseStack_fan_out_paths_witness :
  (exists g' px,
      recurseStack PathToRegexp.parse ""
        (Examples.routeLayer 41 (PathArray ["/a/:x"; "/b/:x"])
           [Examples.handlerLayer 7 "get"; Examples.handlerLayer 1 "get"])
        (addSchema 1 Examples.findOperation Examples.apiV1)
      = Returned g'
      /\ param_name px = "x" /\ param_in px = "path"
      /\ forall key, In key ["/a/{x}"; "/b/{x}"] ->
           exists op,
             operationAt (doc g') key "get" = Some op
             /\ op_summary op = Some "Find"
             /\ op_description op = Some "Finds x"
             /\ op_parameters op = Some [PObject px])
  /\ (exists g' px,
        recurseStack PathToRegexp.parse ""
          (Examples.routeLayer 41 (PathArray ["/a/:x"; "/b/:x"])
             [Examples.handlerLayer 7 "get"; Examples.handlerLayer 1 "get"])
          (addSchema 1 Examples.findOperation Examples.noServer)
        = Returned g'
        /\ param_name px = "x" /\ param_in px = "path"
        /\ forall key, In key ["a/{x}"; "b/{x}"] ->
             exists op,
               operationAt (doc g') key "get" = Some op
               /\ op_summary op = Some "Find"
               /\ op_description op = Some "Finds x"
               /\ op_parameters op = Some [PObject px]).
Proof.
  split.
  - apply (proj2 (recurseStack_fan_out_paths PathToRegexp.parse) 41 1 "get"
             Examples.findOperation
             (addSchema 1 Examples.findOperation Examples.apiV1)
             [Examples.handlerLayer 7 "get"] []
             [TText "/a/"; TParam "x"] [TText "/b/"; TParam "x"]);
      try reflexivity; [repeat constructor | discriminate].
  - apply (proj2 (recurseStack_fan_out_paths PathToRegexp.parse) 41 1 "get"
             Examples.findOperation
             (addSchema 1 Examples.findOperation Examples.noServer)
             [Examples.handlerLayer 7 "get"] []
             [TText "a/"; TParam "x"] [TText "b/"; TParam "x"]);
      try reflexivity; [repeat constructor | discriminate].
Defined.

(** ** The path template *)

Lemma append_nil_l (t : string) : String.append EmptyString t = t.
Proof. reflexivity. Qed.

Lemma append_cons c (s t : string) :
  String.append (String c s) t = String c (String.append s t).
Proof. reflexivity. Qed.

Lemma isWord_not_special c :
  JsString.isWord c = true ->
  Ascii.eqb c "{"%char = false /\ Ascii.eqb c ":"%char = false
  /\ Ascii.eqb c "}"%char = false.
Proof.
  destruct c as [[] [] [] [] [] [] [] []]; vm_compute; intros H;
    try discriminate H; auto.
Qed.

Lemma unwrapGroups_literal s t :
  allChars (fun c => negb (Ascii.eqb c "{"%char)) s = true ->
  JsString.unwrapGroups false (String.append s t)
  = String.append s (JsString.unwrapGroups false t).
Proof.
  induction s as [| c s IH]; intros H; [reflexivity |].
  simpl in H. apply andb_prop in H as [Hc Hs].
  rewrite !append_cons. cbn [JsString.unwrapGroups].
  apply negb_true_iff in Hc. rewrite Hc. cbn [andb]. now rewrite IH.
Qed.

Lemma closesGroup_name n t :
  allChars JsString.isWord n = true ->
  JsString.closesGroup (String.append n (String "}" t)) = true.
Proof.
  induction n as [| c n IH]; intros H; [reflexivity |].
  simpl in H. apply andb_prop in H as [Hc Hn].
  rewrite append_cons. cbn [JsString.closesGroup]. rewrite Hc. now apply IH.
Qed.

Lemma unwrapGroups_name n t :
  allChars JsString.isWord n = true ->
  JsString.unwrapGroups true (String.append n (String "}" t))
  = String.append n (JsString.unwrapGroups false t).
Proof.
  induction n as [| c n IH]; intros H; [reflexivity |].
  simpl in H. apply andb_prop in H as [Hc Hn].
  rewrite !append_cons. cbn [JsString.unwrapGroups]. rewrite Hc.
  now rewrite IH.
Qed.

Lemma unwrapGroups_group_marker n t :
  isName n = true ->
  JsString.unwrapGroups false
    (String "{" (String ":" (String.append n (String "}" t))))
  = String ":" (String.append n (JsString.unwrapGroups false t)).
Proof.
  unfold isName. destruct n as [| c n]; [discriminate |]. intros H.
  cbn [JsString.truthy andb] in H. pose proof H as Hall.
  simpl in H. apply andb_prop in H as [Hc Hn].
  rewrite append_cons. cbn [JsString.unwrapGroups JsString.groupMarkerAhead].
  rewrite Hc, (closesGroup_name n t Hn). cbn [Ascii.eqb Bool.eqb andb].
  now rewrite (unwrapGroups_name n t Hn).
Qed.

Lemma braceMarkers_literal s t :
  allChars (fun c => negb (Ascii.eqb c ":"%char)) s = true ->
  JsString.braceMarkers false (String.append s t)
  = String.append s (JsString.braceMarkers false t).
Proof.
  induction s as [| c s IH]; intros H; [reflexivity |].
  simpl in H. apply andb_prop in H as [Hc Hs].
  rewrite !append_cons. cbn [JsString.braceMarkers andb].
  apply negb_true_iff in Hc. rewrite Hc. cbn [andb].
  rewrite append_nil_l. now rewrite IH.
Qed.

Lemma braceMarkers_name n t :
  allChars JsString.isWord n = true ->
  JsString.braceMarkers true (String.append n t)
  = String.append n (JsString.braceMarkers true t).
Proof.
  induction n as [| c n IH]; intros H; [reflexivity |].
  simpl in H. apply andb_prop in H as [Hc Hn].
  rewrite !append_cons. cbn [JsString.braceMarkers andb]. rewrite Hc.
  now rewrite IH.
Qed.

Lemma braceMarkers_name_ends t :
  JsString.wordAhead t = false ->
  JsString.braceMarkers true t = String "}" (JsString.braceMarkers false t).
Proof.
  destruct t as [| c t]; intros H; [reflexivity |].
  simpl in H. cbn [JsString.braceMarkers andb]. now rewrite H.
Qed.

Lemma braceMarkers_marker n t :
  isName n = true ->
  JsString.wordAhead t = false ->
  JsString.braceMarkers false (String ":" (String.append n t))
  = String "{" (String.append n (String "}" (JsString.braceMarkers false t))).
Proof.
  unfold isName. destruct n as [| c n]; [discriminate |]. intros H Ht.
  cbn [JsString.truthy andb] in H. pose proof H as Hall.
  simpl in H. apply andb_prop in H as [Hc Hn].
  cbn [JsString.braceMarkers andb Ascii.eqb Bool.eqb].
  rewrite append_cons. cbn [JsString.wordAhead]. rewrite Hc.
  rewrite append_nil_l, <- append_cons.
  rewrite (braceMarkers_name (String c n) t Hall).
  now rewrite (braceMarkers_name_ends t Ht).
Qed.

Lemma allChars_impl (f h : ascii -> bool) s :
  (forall c, f c = true -> h c = true) ->
  allChars f s = true -> allChars h s = true.
Proof.
  intros Himpl. induction s as [| c s IH]; simpl; [reflexivity |].
  intros H. apply andb_prop in H as [Hc Hs].
  now rewrite (Himpl c Hc), IH.
Qed.

Lemma isName_no_brace n :
  isName n = true ->
  allChars (fun c => negb (Ascii.eqb c "{"%char)) n = true.
Proof.
  unfold isName. intros H. apply andb_prop in H as [_ H].
  revert H. apply allChars_impl. intros c Hc.
  now destruct (isWord_not_special c Hc) as (-> & _).
Qed.

Lemma wordAhead_append s t :
  JsString.wordAhead (String.append s t)
  = match s with
    | EmptyString => JsString.wordAhead t
    | String c _ => JsString.isWord c
    end.
Proof. destruct s; reflexivity. Qed.

Lemma wordAhead_unwrapped segments :
  JsString.wordAhead (express (unwrapped segments))
  = JsString.wordAhead (express segments).
Proof.
  induction segments as [| [text | name | name] rest IH]; simpl;
    try reflexivity.
  rewrite !wordAhead_append. now destruct text.
Qed.

Lemma separated_unwrapped segments :
  separated segments = true -> separated (unwrapped segments) = true.
Proof.
  induction segments as [| [text | name | name] rest IH]; simpl;
    [reflexivity | | |]; intros H.
  - apply andb_prop in H as [Ht Hr]. now rewrite Ht, IH.
  - apply andb_prop in H as [H Hr]. rewrite wordAhead_unwrapped, H.
    now apply IH.
  - apply andb_prop in H as [H Hr]. rewrite wordAhead_unwrapped, H.
    now apply IH.
Qed.

(** The first [replace] unwraps the markers wrapped in a group. *)
Lemma unwrapGroups_express segments :
  separated segments = true ->
  JsString.unwrapGroups false (express segments)
  = express (unwrapped segments).
Proof.
  induction segments as [| [text | name | name] rest IH];
    cbn [express unwrapped map separated template];
    [reflexivity | | |]; intros H.
  - fold (unwrapped rest). apply andb_prop in H as [Ht Hr].
    rewrite unwrapGroups_literal, IH by
      (auto; revert Ht; apply allChars_impl; intros c Hc;
       now apply andb_prop in Hc as [_ ->]).
    reflexivity.
  - fold (unwrapped rest).
    apply andb_prop in H as [H Hr]. apply andb_prop in H as [Hn _].
    change (String ":" (String.append name (express rest)))
      with (String.append (String ":" name) (express rest)).
    rewrite unwrapGroups_literal, IH by
      (auto; simpl; now apply isName_no_brace).
    reflexivity.
  - fold (unwrapped rest).
    apply andb_prop in H as [H Hr]. apply andb_prop in H as [Hn _].
    rewrite unwrapGroups_group_marker by exact Hn. now rewrite IH.
Qed.

(** The second [replace] puts every marker that is left in braces. *)
Lemma braceMarkers_express segments :
  separated segments = true ->
  JsString.braceMarkers false (express (unwrapped segments))
  = template segments.
Proof.
  induction segments as [| [text | name | name] rest IH];
    cbn [express unwrapped map separated template];
    [reflexivity | | |]; intros H.
  - fold (unwrapped rest). apply andb_prop in H as [Ht Hr].
    rewrite braceMarkers_literal, IH by
      (auto; revert Ht; apply allChars_impl; intros c Hc;
       now apply andb_prop in Hc as [-> _]).
    reflexivity.
  - fold (unwrapped rest).
    apply andb_prop in H as [H Hr]. apply andb_prop in H as [Hn Ha].
    apply negb_true_iff in Ha.
    rewrite braceMarkers_marker, IH;
      auto. now rewrite wordAhead_unwrapped.
  - fold (unwrapped rest).
    apply andb_prop in H as [H Hr]. apply andb_prop in H as [Hn Ha].
    apply negb_true_iff in Ha.
    rewrite braceMarkers_marker, IH;
      auto. now rewrite wordAhead_unwrapped.
Qed.

(** Where no marker is followed at once by a word character, the key
    has a name in braces for every marker of the path, plain or wrapped
    in a group, in place and in order. *)
Lemma toOpenAPIPath_separated segments :
  separated segments = true ->
  toOpenAPIPath (express segments) = template segments.
Proof.
  intros H. unfold toOpenAPIPath.
  rewrite unwrapGroups_express by exact H. now apply braceMarkers_express.
Qed.

(** C8, on the code. A marker wrapped in a group and followed at once
    by a word character is renamed: the first [replace] unwraps
    [{:a}b] to [:ab], which the second reads as one marker. The route
    [/x{:a}b], whose parameter is [a], is recorded under [/x{ab}]. *)
Theorem toOpenAPIPath_group_marker_renamed :
  express [SLiteral "/x"; SGroupMarker "a"; SLiteral "b"] = "/x{:a}b"
  /\ template [SLiteral "/x"; SGroupMarker "a"; SLiteral "b"] = "/x{a}b"
  /\ toOpenAPIPath "/x{:a}b" = "/x{ab}"
  /\ PathToRegexp.parse "/x{:a}b"
     = Some [TText "/x"; TGroup [TParam "a"]; TText "b"]
  /\ exists g' op,
       initializeDoc PathToRegexp.parse (Some Examples.groupRouter)
         Examples.documented
       = Returned g'
       /\ doc_paths (doc g') !! "/x{a}b" = None
       /\ operationAt (doc g') "/x{ab}" "get" = Some op
       /\ option_map (map (fun entry =>
                             match entry with
                             | PObject p => param_name p
                             | PReference ref => ref
                             end)) (op_parameters op)
          = Some ["a"].
Proof.
  repeat (split; [reflexivity |]).
  do 2 eexists. split; [reflexivity |]. split; [reflexivity |].
  split; [vm_compute; reflexivity | reflexivity].
Qed.

(** ** Walking the same router again *)

Lemma planLayer_unfold parse g0 path layer :
  planLayer parse g0 path layer =
  planThen (planParams parse g0 path layer)
    (planThen (planMount parse g0 path layer)
       (planRoute parse g0 path (layer_route layer))).
Proof.
  destruct layer as [name handle method route]; simpl.
  f_equal. f_equal.
  - unfold planMount; simpl.
    destruct (String.eqb name "router"); [| reflexivity].
    destruct handle as [ref | [ref stack]]; reflexivity.
  - unfold planRoute.
    destruct route as [[[p | ps] stack] |]; simpl; try reflexivity.
    induction stack as [| l ls IH]; simpl; [reflexivity |].
    destruct (hasSchema g0 l); [reflexivity | exact IH].
Qed.

(** Among keys of distinct names, the parameter resolved for a key is
    the one [find] comes upon for it. *)
Lemma find_resolved schema keys k :
  NoDup (map key_name keys) -> In k keys ->
  List.find (declaresPathParam k) (map PObject (resolveParams schema keys))
  = Some (PObject (assignParam (defaultParam k) (findDeclared schema k))).
Proof.
  induction keys as [| k0 keys IH]; simpl; [easy |].
  intros Hnodup Hin. apply NoDup_cons in Hnodup as [Hfresh Hnodup].
  destruct (assignParam_shape schema k0) as (Hname & Hpath & _).
  simpl in Hname, Hpath. rewrite Hname, Hpath. simpl.
  destruct Hin as [-> | Hin].
  - now rewrite String.eqb_refl.
  - destruct (String.eqb_spec (key_name k0) (key_name k)) as [Heq | _];
      simpl; [| now apply IH].
    exfalso. apply Hfresh. rewrite Heq.
    apply list_elem_of_In. now apply in_map.
Qed.

(** Resolving the keys again, against the operation they were resolved
    into, gives the same parameters. *)
Lemma resolveParams_settled schema keys :
  NoDup (map key_name keys) ->
  resolveParams (settledOperation schema keys) keys
  = resolveParams schema keys.
Proof.
  intros Hnodup. unfold resolveParams. apply map_ext_in.
  intros k Hin. unfold findDeclared at 1. simpl.
  rewrite find_resolved by assumption.
  destruct (assignParam_shape schema k) as (_ & _ & Hreq & Hsch).
  now apply assignParam_resolved.
Qed.

Lemma settledOperation_settled schema keys :
  NoDup (map key_name keys) ->
  settledOperation (settledOperation schema keys) keys
  = settledOperation schema keys.
Proof.
  intros Hnodup. unfold settledOperation at 1.
  now rewrite resolveParams_settled.
Qed.

Lemma applyWrites_app ws1 ws2 g :
  applyWrites (ws1 ++ ws2) g = applyWrites ws2 (applyWrites ws1 g).
Proof. apply fold_left_app. Qed.

(** A plan in two parts stands for the two outcomes in sequence. *)
Lemma outcomeOf_planThen p q g :
  outcomeOf (planThen p q) g = do g' <- outcomeOf p g; outcomeOf q g'.
Proof.
  destruct p as [ws1 [[e | n mt] |]]; unfold planThen, outcomeOf; simpl;
    [reflexivity | reflexivity |].
  rewrite applyWrites_app. reflexivity.
Qed.

Lemma planThen_incl p q ws :
  incl (fst (planThen p q)) ws ->
  incl (fst p) ws /\ (snd p = None -> incl (fst q) ws).
Proof.
  destruct p as [ws1 [e |]]; unfold planThen; simpl; intros H.
  - split; [exact H | discriminate].
  - split; [| intros _]; intros w Hw; apply H, in_or_app; auto.
Qed.

Lemma find_ext {A} (f h : A -> bool) (l : list A) :
  (forall x, f x = h x) -> List.find f l = List.find h l.
Proof.
  intros Hext. induction l as [| x l IH]; simpl; [reflexivity |].
  now rewrite Hext, IH.
Qed.

Lemma andThen_plan o p (k : Generator -> Outcome) q g :
  o = outcomeOf p g ->
  (snd p = None -> k (applyWrites (fst p) g)
                   = outcomeOf q (applyWrites (fst p) g)) ->
  (do g' <- o; k g') = outcomeOf (planThen p q) g.
Proof.
  intros -> Hk. rewrite outcomeOf_planThen.
  destruct p as [ws1 [[e | n mt] |]]; unfold outcomeOf at 1 3; simpl;
    [reflexivity | reflexivity |].
  now apply Hk.
Qed.

Section Settling.

Variable parse : string -> option (list Token).
Variable g0 : Generator.
Variable ws : list Write.
Hypothesis ws_keys : sameKeysPerHandler ws.
Hypothesis ws_names : distinctNames ws.
Hypothesis ws_from : Forall (fromSchema g0) ws.

Lemma settling_start : settling g0 ws g0.
Proof.
  split; [apply sameRegistrations_refl |]. split; [reflexivity | now left].
Qed.

Lemma applyWrite_settling g w :
  settling g0 ws g -> In w ws -> settling g0 ws (applyWrite g w).
Proof.
  intros [(Hrouter & Hbase & Hdom) [Hinherits Hschemas]] Hin.
  pose proof (proj1 (List.Forall_forall _ _) ws_from) as Hfrom.
  destruct (Hfrom w Hin) as (Hown & schema & Hschema & _).
  split; [| split].
  - repeat split; simpl; auto. rewrite <- Hdom.
    apply dom_insert_lookup_L.
    apply elem_of_dom. rewrite Hdom. apply elem_of_dom. eauto.
  - intros key. destruct (decide (w_path w = key)) as [<- | Hne].
    + rewrite Hown. eapply inheritsPathItem_own. simpl.
      apply lookup_insert_eq.
    + rewrite <- Hinherits. unfold inheritsPathItem. simpl.
      now rewrite lookup_insert_ne by exact Hne.
  - intros h. simpl. destruct (decide (w_handle w = h)) as [<- | Hne].
    + right. exists w. split; [exact Hin |]. split; [reflexivity |].
      apply lookup_insert_eq.
    + rewrite lookup_insert_ne by exact Hne. apply Hschemas.
Qed.

Lemma applyWrites_settling l :
  forall g, settling g0 ws g -> incl l ws ->
            settling g0 ws (applyWrites l g).
Proof.
  induction l as [| w l IH]; intros g Hg Hincl; simpl; [exact Hg |].
  apply IH.
  - apply applyWrite_settling; [exact Hg |]. apply Hincl. now left.
  - intros w' Hw'. apply Hincl. now right.
Qed.

(** The metadata step does what the plan says, whether the handler
    still has its schema or has been recorded before. *)
Lemma getParams_plan path layer g :
  settling g0 ws g ->
  incl (fst (planParams parse g0 path layer)) ws ->
  getParams parse path layer g = outcomeOf (planParams parse g0 path layer) g.
Proof.
  intros [(Hrouter & Hbase & Hdom) [Hinherits Hschemas]] Hincl.
  unfold getParams, planParams in *. rewrite Hbase.
  set (h := handle_ref (layer_handle layer)) in *.
  set (stripped := stripBasePath (basePath g0) path) in *.
  destruct (schemaMap g0 !! h) as [schema |] eqn:Hschema.
  2: { assert (Hnone : schemaMap g !! h = None).
       { apply not_elem_of_dom. rewrite Hdom. now apply not_elem_of_dom. }
       now rewrite Hnone. }
  assert (Hsome : exists current, schemaMap g !! h = Some current).
  { apply elem_of_dom. rewrite Hdom. apply elem_of_dom. eauto. }
  destruct Hsome as [current Hcurrent]. rewrite Hcurrent.
  destruct (layer_method layer) as [m |]; [| reflexivity].
  destruct (negb (isHTTPMethod (JsString.toLowerCase m))); [reflexivity |].
  destruct (parse stripped) as [tokens |]; [| reflexivity].
  destruct (existsb isWildcard (parseKeys tokens)); [reflexivity |].
  rewrite Hinherits.
  destruct (inheritsPathItem (doc g0) (toOpenAPIPath stripped));
    [reflexivity |].
  unfold outcomeOf, applyWrites, applyWrite, recorded; simpl.
  set (keys := parseKeys tokens) in *.
  set (w := mkWrite h (toOpenAPIPath stripped) (JsString.toLowerCase m) keys
              (settledOperation schema keys)) in *.
  assert (Hw : In w ws) by (apply Hincl; now left).
  assert (Hop : withParameters current (resolveParams current keys)
                = settledOperation schema keys).
  { destruct (Hschemas h) as [Hsame | (w' & Hw' & Hhandle & Hrecorded)].
    - rewrite Hcurrent, Hschema in Hsame. now injection Hsame as ->.
    - rewrite Hcurrent in Hrecorded. injection Hrecorded as ->.
      pose proof (proj1 (List.Forall_forall _ _) ws_from) as Hfrom.
      pose proof (proj1 (List.Forall_forall _ _) ws_names) as Hnames.
      destruct (Hfrom w' Hw') as (_ & schema' & Hschema' & ->).
      rewrite Hhandle, Hschema in Hschema'. injection Hschema' as <-.
      rewrite (ws_keys w' w Hw' Hw Hhandle). simpl.
      apply (settledOperation_settled schema keys (Hnames w Hw)). }
  fold (resolveParams current keys). now rewrite Hop, Hbase.
Qed.

Lemma hasSchema_settling g l :
  settling g0 ws g -> hasSchema g l = hasSchema g0 l.
Proof.
  intros [(_ & _ & Hdom) _]. unfold hasSchema. apply bool_decide_ext.
  rewrite <- !elem_of_dom. now rewrite Hdom.
Qed.

Lemma outcomeOf_settling p g :
  settling g0 ws g -> incl (fst p) ws ->
  settling g0 ws (final (outcomeOf p g)).
Proof.
  intros Hg Hincl. unfold outcomeOf.
  destruct (snd p) as [[e | n mt] |]; simpl; now apply applyWrites_settling.
Qed.

(** A loop does what the plans of its calls say, one after the other. *)
Lemma forEach_plan {A} (f : A -> Generator -> Outcome) (fp : A -> Plan) xs :
  Forall (fun x => forall g, settling g0 ws g -> incl (fst (fp x)) ws ->
                             f x g = outcomeOf (fp x) g) xs ->
  forall g, settling g0 ws g -> incl (fst (planEach fp xs)) ws ->
            forEach f xs g = outcomeOf (planEach fp xs) g.
Proof.
  induction 1 as [| x xs Hx _ IH]; intros g Hg Hincl; [reflexivity |].
  cbn [forEach planEach] in *. rewrite outcomeOf_planThen.
  apply planThen_incl in Hincl as [Hfirst Hrest].
  rewrite (Hx g Hg Hfirst).
  pose proof (outcomeOf_settling (fp x) g Hg Hfirst) as Hg'.
  unfold outcomeOf in *.
  destruct (snd (fp x)) as [[e | n mt] |]; simpl in *;
    [reflexivity | reflexivity |].
  now apply IH; [| apply Hrest].
Qed.

(** The walk of a layer does what its plan says. *)
Lemma recurseStack_plan layer :
  forall path g,
    settling g0 ws g ->
    incl (fst (planLayer parse g0 path layer)) ws ->
    recurseStack parse path layer g
    = outcomeOf (planLayer parse g0 path layer) g.
Proof.
  induction layer as [name handle method route IHrouter IHroute]
    using Layer_nested_ind.
  intros path g Hg Hincl.
  set (layer := mkLayer name handle method route) in *.
  rewrite recurseStack_unfold. rewrite planLayer_unfold in Hincl |- *.
  apply planThen_incl in Hincl as [Hparams Hincl].
  apply andThen_plan; [now apply getParams_plan |].
  intros Hnone. specialize (Hincl Hnone).
  pose proof (applyWrites_settling _ g Hg Hparams) as Hg1.
  set (g1 := applyWrites (fst (planParams parse g0 path layer)) g) in *.
  apply planThen_incl in Hincl as [Hmount Hroute].
  apply andThen_plan.
  { unfold mountStep, planMount in *. simpl in *.
    destruct (String.eqb name "router"); [| reflexivity].
    destruct handle as [ref | r]; [reflexivity |].
    destruct Hg1 as [(Hrouter & Hbase & Hdom) Hschemas].
    rewrite Hrouter.
    destruct (routerMap g0 !! router_ref r) as [rp |]; [| reflexivity].
    destruct (JsString.truthy rp); [| reflexivity].
    apply forEach_plan; [| now split | exact Hmount].
    simpl in IHrouter. eapply Forall_impl; [exact IHrouter |].
    intros l Hl g' Hg' Hincl'. now apply Hl. }
  intros Hnone'. specialize (Hroute Hnone').
  pose proof (applyWrites_settling _ g1 Hg1 Hmount) as Hg2.
  set (g2 := applyWrites (fst (planMount parse g0 path layer)) g1) in *.
  unfold routeStep, planRoute in *. simpl in *.
  destruct route as [rt |]; [| reflexivity]. simpl in IHroute.
  destruct (route_path rt) as [p | ps].
  - apply forEach_plan; [| exact Hg2 | exact Hroute].
    eapply Forall_impl; [exact IHroute |].
    intros l Hl g' Hg' Hincl'. now apply Hl.
  - assert (Hfind : find (hasSchema g2) (route_stack rt)
                    = find (hasSchema g0) (route_stack rt)).
    { apply find_ext. intros l. now apply hasSchema_settling. }
    rewrite Hfind.
    destruct (find (hasSchema g0) (route_stack rt)) as [l |] eqn:Hl;
      [| reflexivity].
    apply find_some in Hl as [Hin _].
    rewrite List.Forall_forall in IHroute. specialize (IHroute l Hin).
    apply forEach_plan; [| exact Hg2 | exact Hroute].
    apply List.Forall_forall. intros p _ g' Hg' Hincl'. now apply IHroute.
Qed.

(** The walk of a router does what its plan says. *)
Lemma initializeDoc_plan root g :
  settling g0 ws g ->
  incl (fst (planRoot parse g0 root)) ws ->
  initializeDoc parse (Some root) g = outcomeOf (planRoot parse g0 root) g.
Proof.
  intros Hg Hincl. unfold initializeDoc, planRoot in *.
  apply forEach_plan; [| exact Hg | exact Hincl].
  apply List.Forall_forall. intros l _ g' Hg' Hincl'.
  now apply recurseStack_plan.
Qed.

End Settling.

(** *** Records made twice *)

Lemma applyWrites_fields ws :
  forall g,
    applyWrites ws g =
    {| doc := {| doc_openapi := doc_openapi (doc g);
                 doc_info := doc_info (doc g);
                 doc_servers := doc_servers (doc g);
                 doc_paths := pathsOf ws (doc_paths (doc g)) |};
       basePath := basePath g;
       schemaMap := schemasOf ws (schemaMap g);
       routerMap := routerMap g |}.
Proof.
  induction ws as [| w ws IH]; intros g; simpl.
  - now destruct g as [[] ? ? ?].
  - unfold applyWrites in *. simpl. now rewrite IH.
Qed.

Lemma overlay_empty paths : overlay ∅ paths = paths.
Proof.
  apply map_eq. intros k. unfold overlay.
  rewrite lookup_union_with, lookup_empty. now destruct (paths !! k).
Qed.

Lemma overlay_insert (new old : gmap string (gmap string OperationObject))
    path method operation :
  <[path := <[method := operation]> (default ∅ (overlay new old !! path))]>
    (overlay new old)
  = overlay (<[path := <[method := operation]> (default ∅ (new !! path))]> new)
      old.
Proof.
  apply map_eq. intros k. unfold overlay.
  destruct (decide (path = k)) as [<- | Hne].
  - rewrite lookup_insert_eq, !lookup_union_with, lookup_insert_eq.
    destruct (new !! path) as [n |], (old !! path) as [o |]; simpl;
      try reflexivity.
    + now rewrite insert_union_l.
    + now rewrite <- insert_union_l, (left_id ∅ (∪)).
  - rewrite lookup_insert_ne by exact Hne.
    rewrite !lookup_union_with. now rewrite lookup_insert_ne by exact Hne.
Qed.

Lemma pathsOf_overlay ws :
  forall new old, pathsOf ws (overlay new old) = overlay (pathsOf ws new) old.
Proof.
  induction ws as [| w ws IH]; intros new old; simpl; [reflexivity |].
  unfold pathsOf in *. simpl. now rewrite overlay_insert, IH.
Qed.

Lemma overlay_twice new old : overlay new (overlay new old) = overlay new old.
Proof.
  apply map_eq. intros k. unfold overlay. rewrite !lookup_union_with.
  destruct (new !! k) as [n |], (old !! k) as [o |]; simpl; try reflexivity.
  - f_equal. apply map_eq. intros i. rewrite !lookup_union.
    now destruct (n !! i), (o !! i).
  - f_equal. apply map_eq. intros i. rewrite !lookup_union.
    now destruct (n !! i).
Qed.

Lemma pathsOf_from_empty ws paths :
  pathsOf ws paths = overlay (pathsOf ws ∅) paths.
Proof. now rewrite <- pathsOf_overlay, overlay_empty. Qed.

Lemma pathsOf_twice ws paths :
  pathsOf ws (pathsOf ws paths) = pathsOf ws paths.
Proof.
  rewrite (pathsOf_from_empty ws (pathsOf ws paths)).
  rewrite (pathsOf_from_empty ws paths). apply overlay_twice.
Qed.

Lemma schemasOf_union ws :
  forall new old : gmap Ref OperationObject,
    schemasOf ws (new ∪ old) = schemasOf ws new ∪ old.
Proof.
  induction ws as [| w ws IH]; intros new old; simpl; [reflexivity |].
  unfold schemasOf in *. simpl. now rewrite insert_union_l, IH.
Qed.

Lemma schemasOf_from_empty ws (schemas : gmap Ref OperationObject) :
  schemasOf ws schemas = schemasOf ws ∅ ∪ schemas.
Proof. now rewrite <- schemasOf_union, (left_id ∅ (∪)). Qed.

Lemma schemasOf_twice ws (schemas : gmap Ref OperationObject) :
  schemasOf ws (schemasOf ws schemas) = schemasOf ws schemas.
Proof.
  rewrite (schemasOf_from_empty ws (schemasOf ws schemas)).
  rewrite (schemasOf_from_empty ws schemas).
  apply map_eq. intros k. rewrite !lookup_union.
  now destruct (schemasOf ws ∅ !! k), (schemas !! k).
Qed.

(** The records of a walk, made twice, leave what they leave when made
    once: each place holds the last operation written to it. *)
Lemma applyWrites_twice ws g :
  applyWrites ws (applyWrites ws g) = applyWrites ws g.
Proof.
  rewrite (applyWrites_fields ws (applyWrites ws g)).
  rewrite (applyWrites_fields ws g). simpl.
  now rewrite pathsOf_twice, schemasOf_twice.
Qed.

(** *** The records of a plan come from the registered schemas *)

Lemma planThen_Forall (P : Write -> Prop) p q :
  Forall P (fst p) -> Forall P (fst q) -> Forall P (fst (planThen p q)).
Proof.
  intros Hp Hq. unfold planThen. destruct (snd p); simpl; [exact Hp |].
  apply Forall_app. now split.
Qed.

Lemma planEach_Forall {A} (P : Write -> Prop) (fp : A -> Plan) xs :
  Forall (fun x => Forall P (fst (fp x))) xs ->
  Forall P (fst (planEach fp xs)).
Proof.
  induction 1 as [| x xs Hx _ IH]; simpl; [constructor |].
  now apply planThen_Forall.
Qed.

Lemma planParams_fromSchema parse g0 path layer :
  Forall (fromSchema g0) (fst (planParams parse g0 path layer)).
Proof.
  unfold planParams.
  destruct (schemaMap g0 !! _) as [schema |] eqn:Hschema; [| constructor].
  destruct (layer_method layer); [| constructor].
  destruct (negb _); [constructor |].
  destruct (parse _); [| constructor].
  destruct (existsb _ _); [constructor |].
  destruct (inheritsPathItem _ _) eqn:Hown; constructor; [| constructor].
  split; [exact Hown |]. exists schema. now split.
Qed.

Lemma planLayer_fromSchema parse g0 layer :
  forall path, Forall (fromSchema g0) (fst (planLayer parse g0 path layer)).
Proof.
  induction layer as [name handle method route IHrouter IHroute]
    using Layer_nested_ind.
  intros path. rewrite planLayer_unfold.
  apply planThen_Forall; [apply planParams_fromSchema |].
  apply planThen_Forall.
  - unfold planMount; simpl.
    destruct (String.eqb name "router"); [| constructor].
    destruct handle as [ref | r]; [constructor |].
    destruct (routerMap g0 !! router_ref r) as [rp |]; [| constructor].
    destruct (JsString.truthy rp); [| constructor].
    apply planEach_Forall. simpl in IHrouter.
    eapply Forall_impl; [exact IHrouter |]. intros l Hl. apply Hl.
  - unfold planRoute; simpl.
    destruct route as [rt |]; [| constructor]. simpl in IHroute.
    destruct (route_path rt) as [p | ps].
    + apply planEach_Forall.
      eapply Forall_impl; [exact IHroute |]. intros l Hl. apply Hl.
    + destruct (find (hasSchema g0) (route_stack rt)) as [l |] eqn:Hl;
        [| constructor].
      apply find_some in Hl as [Hin _].
      rewrite List.Forall_forall in IHroute. specialize (IHroute l Hin).
      apply planEach_Forall. apply List.Forall_forall. intros p _.
      apply IHroute.
Qed.

Lemma planRoot_fromSchema parse g0 root :
  Forall (fromSchema g0) (fst (planRoot parse g0 root)).
Proof.
  unfold planRoot. apply planEach_Forall. apply List.Forall_forall.
  intros l _. apply planLayer_fromSchema.
Qed.




(** * Further properties of the code *)

(** ** [processTokens] and [parseKeys] *)

(** [processTokens] only pushes: the keys it was given stay in front. *)
Lemma processToken_appends t :
  forall inside acc,
    processToken inside acc t = acc ++ processToken inside [] t.
Proof.
  induction t as [value | name | name | tokens IH] using Token_nested_ind;
    intros inside acc; simpl; try reflexivity.
  - now rewrite app_nil_r.
  - revert acc. induction IH as [| t ts Ht _ IHts]; intros acc; simpl.
    + now rewrite app_nil_r.
    + rewrite IHts, (IHts (processToken true [] t)), Ht.
      now rewrite app_assoc.
Qed.

Lemma processTokens_appends tokens :
  forall inside acc,
    processTokens tokens inside acc = acc ++ processTokens tokens inside [].
Proof.
  unfold processTokens.
  induction tokens as [| t ts IH]; intros inside acc; simpl.
  - now rewrite app_nil_r.
  - rewrite IH, (IH inside (processToken inside [] t)).
    rewrite (processToken_appends t inside acc). now rewrite app_assoc.
Qed.

Lemma processTokens_Forall (P : Keys -> Prop) inside tokens :
  Forall (fun t => Forall P (processToken inside [] t)) tokens ->
  Forall P (processTokens tokens inside []).
Proof.
  unfold processTokens. induction 1 as [| t ts Ht _ IH]; simpl; [constructor |].
  pose proof (processTokens_appends ts inside (processToken inside [] t)) as H.
  unfold processTokens in H. rewrite H. apply Forall_app. now split.
Qed.

(** The keys found inside a group are not required. *)
Lemma processToken_group t :
  Forall (fun k => notRequired k = k) (processToken true [] t).
Proof.
  induction t as [value | name | name | tokens IH] using Token_nested_ind;
    simpl; repeat constructor.
  now apply (processTokens_Forall _ true tokens).
Qed.

(** Inside a group the keys are those found outside one, not required. *)
Lemma processToken_inside t :
  processToken true [] t = map notRequired (processToken false [] t).
Proof.
  destruct t as [value | name | name | tokens]; try reflexivity.
  simpl. pose proof (processToken_group (TGroup tokens)) as H. simpl in H.
  induction H as [| k ks Hk _ IH]; simpl; [reflexivity |].
  now rewrite Hk, <- IH.
Qed.

Lemma processTokens_cons t ts inside :
  processTokens (t :: ts) inside []
  = processToken inside [] t ++ processTokens ts inside [].
Proof.
  unfold processTokens at 1. simpl.
  apply (processTokens_appends ts inside (processToken inside [] t)).
Qed.

Lemma processTokens_inside tokens :
  processTokens tokens true [] = map notRequired (processTokens tokens false []).
Proof.
  induction tokens as [| t ts IH]; [reflexivity |].
  now rewrite !processTokens_cons, map_app, IH, processToken_inside.
Qed.

(** X1. [parseKeys] lists the keys in the order of the tokens: the keys
    of a sequence are those of its parts one after the other, text has
    no key, a parameter or wildcard has one required key, and a group
    has the keys of its tokens, none of them required. *)
Theorem parseKeys_in_order :
  (forall ts1 ts2, parseKeys (ts1 ++ ts2) = parseKeys ts1 ++ parseKeys ts2)
  /\ (forall value, parseKeys [TText value] = [])
  /\ (forall name, parseKeys [TParam name] = [mkKeys name KParam true])
  /\ (forall name, parseKeys [TWildcard name] = [mkKeys name KWildcard true])
  /\ (forall tokens,
         parseKeys [TGroup tokens] = map notRequired (parseKeys tokens)).
Proof.
  repeat split; try reflexivity.
  - intros ts1 ts2. unfold parseKeys, processTokens.
    rewrite fold_left_app.
    apply (processTokens_appends ts2 false).
  - intros tokens. unfold parseKeys at 1. unfold processTokens. simpl.
    apply processTokens_inside.
Qed.

(** ** The base path and the path template *)

Lemma removeFirst_prefix s p :
  JsString.startsWith s p = true ->
  JsString.removeFirst s p = JsString.drop (String.length p) s.
Proof. intros H. destruct s; simpl; now rewrite H. Qed.

(** X2. The base path is taken off the front of a path that starts
    with it, once, and a path that does not start with it is kept: the
    occurrence [replace] removes is the one [startsWith] has found, at
    the front, whatever comes after it. An empty base path takes
    nothing off. *)
Theorem stripBasePath_drops_prefix base path :
  stripBasePath base path =
  if JsString.startsWith path base
  then JsString.drop (String.length base) path
  else path.
Proof.
  unfold stripBasePath.
  destruct (JsString.startsWith path base) eqn:Hstarts.
  - destruct base as [| c base]; [reflexivity |].
    cbn [JsString.truthy andb]. now apply removeFirst_prefix.
  - now rewrite andb_false_r.
Qed.

Lemma groupMarkerAhead_no_colon s :
  allChars (fun c => negb (Ascii.eqb c ":"%char)) s = true ->
  JsString.groupMarkerAhead s = false.
Proof.
  destruct s as [| c s]; [reflexivity |]. simpl. intros H.
  apply andb_prop in H as [Hc _]. apply negb_true_iff in Hc.
  destruct c as [[] [] [] [] [] [] [] []]; try reflexivity; discriminate Hc.
Qed.

Lemma unwrapGroups_no_colon s :
  allChars (fun c => negb (Ascii.eqb c ":"%char)) s = true ->
  JsString.unwrapGroups false s = s.
Proof.
  induction s as [| c s IH]; [reflexivity |]. intros H.
  pose proof H as Hall. simpl in H. apply andb_prop in H as [_ Hs].
  cbn [JsString.unwrapGroups].
  rewrite (groupMarkerAhead_no_colon s Hs), andb_false_r.
  now rewrite IH.
Qed.

Lemma braceMarkers_no_colon s :
  allChars (fun c => negb (Ascii.eqb c ":"%char)) s = true ->
  JsString.braceMarkers false s = s.
Proof.
  induction s as [| c s IH]; [reflexivity |]. intros H.
  simpl in H. apply andb_prop in H as [Hc Hs]. apply negb_true_iff in Hc.
  cbn [JsString.braceMarkers andb]. rewrite Hc. cbn [andb].
  rewrite append_nil_l. now rewrite IH.
Qed.

(** X3. A path without a colon is recorded as it is written. *)
Theorem toOpenAPIPath_without_colon path :
  allChars (fun c => negb (Ascii.eqb c ":"%char)) path = true ->
  toOpenAPIPath path = path.
Proof.
  intros H. unfold toOpenAPIPath.
  rewrite unwrapGroups_no_colon by exact H. now apply braceMarkers_no_colon.
Qed.

Lemma toOpenAPIPath_without_colon_witness :
  toOpenAPIPath "/api/users/" = "/api/users/".
Proof. apply toOpenAPIPath_without_colon. reflexivity. Defined.

Lemma braceMarkers_keeps_no_word s :
  JsString.wordAhead s = false ->
  JsString.wordAhead (JsString.braceMarkers false s) = false.
Proof.
  destruct s as [| c s]; [reflexivity |]. simpl. intros Hc.
  rewrite append_nil_l.
  destruct (Ascii.eqb c ":"%char && JsString.wordAhead s); [reflexivity |].
  exact Hc.
Qed.

Lemma hasMarker_braceMarkers s :
  forall inName, hasMarker (JsString.braceMarkers inName s) = false.
Proof.
  induction s as [| c s IH]; intros inName; [now destruct inName |].
  cbn [JsString.braceMarkers].
  destruct (inName && JsString.isWord c) eqn:Hname.
  - apply andb_prop in Hname as [_ Hword].
    destruct (isWord_not_special c Hword) as (_ & Hcolon & _).
    cbn [hasMarker]. now rewrite Hcolon, IH.
  - assert (Hrest :
      hasMarker (if Ascii.eqb c ":"%char && JsString.wordAhead s
                 then String "{" (JsString.braceMarkers true s)
                 else String c (JsString.braceMarkers false s)) = false).
    { destruct (Ascii.eqb c ":"%char && JsString.wordAhead s) eqn:Hmarker;
        cbn [hasMarker]; rewrite IH; [reflexivity |].
      rewrite orb_false_r.
      destruct (Ascii.eqb c ":"%char); [| reflexivity]. simpl in Hmarker.
      now rewrite (braceMarkers_keeps_no_word s Hmarker). }
    destruct inName; [| now rewrite append_nil_l].
    rewrite append_cons, append_nil_l. cbn [hasMarker]. now rewrite Hrest.
Qed.

(** X4. No Express marker is left in a key: in what the two [replace]
    calls return, no colon has a word character after it. *)
Theorem toOpenAPIPath_leaves_no_marker path :
  hasMarker (toOpenAPIPath path) = false.
Proof. unfold toOpenAPIPath. apply hasMarker_braceMarkers. Qed.

(** X5. Where no marker is followed at once by a word character, the
    two [replace] calls put the name of every marker in braces, plain
    or wrapped in a group, where the marker stood, and keep the literal
    text as it is. *)
Theorem toOpenAPIPath_template segments :
  separated segments = true ->
  toOpenAPIPath (express segments) = template segments.
Proof. apply toOpenAPIPath_separated. Qed.

Lemma toOpenAPIPath_template_witness :
  toOpenAPIPath "/users/:userId/files/:name{:ext}"
  = "/users/{userId}/files/{name}{ext}".
Proof.
  apply (toOpenAPIPath_template
           [SLiteral "/users/"; SMarker "userId"; SLiteral "/files/";
            SMarker "name"; SGroupMarker "ext"]).
  reflexivity.
Defined.

(** ** What [getParams] writes *)

(** X6. When [getParams] throws it has written nothing: the generator
    is as it was, and what is thrown is a [TypeError] or a
    [WildcardPathError], never a [RouterRegistrationError]. *)
Theorem getParams_throws_before_writing parse path layer g e g' :
  getParams parse path layer g = Thrown e g' ->
  g' = g /\ getRouterInfo e = None.
Proof.
  unfold getParams.
  destruct (schemaMap g !! _); [| discriminate].
  destruct (layer_method layer); [| intros [= <- <-]; now split].
  destruct (negb _); [discriminate |].
  destruct (parse _); [| intros [= <- <-]; now split].
  destruct (existsb _ _);
    [| destruct (inheritsPathItem _ _); discriminate].
  intros [= <- <-]. now split.
Qed.

Lemma getParams_throws_before_writing_witness :
  Examples.documented = Examples.documented
  /\ getRouterInfo
       (newWildcardPathError "/files/*file" "handler") = None.
Proof.
  apply (getParams_throws_before_writing PathToRegexp.parse "/files/*file"
           (Examples.handlerLayer 1 "get") Examples.documented).
  reflexivity.
Defined.

(** X7. A call of [getParams] that returns, the path item of its key
    being the document's own or a new one, has written in two places
    only: the operation under the translated path and the lowercased
    method of the layer, and the schema of the layer's handle. Every
    other operation of the document, the operations of the other
    methods of the same path among them, every other schema, and the
    head of the document are as they were. A call whose key names a
    property that [paths] inherits does not return here: it is
    [Polluted]. *)
Theorem getParams_writes_one_operation parse path layer g g' :
  getParams parse path layer g = Returned g' ->
  doc_openapi (doc g') = doc_openapi (doc g)
  /\ doc_info (doc g') = doc_info (doc g)
  /\ doc_servers (doc g') = doc_servers (doc g)
  /\ (forall h, h <> handle_ref (layer_handle layer) ->
                schemaMap g' !! h = schemaMap g !! h)
  /\ (forall key method,
         key <> toOpenAPIPath (stripBasePath (basePath g) path)
         \/ Some method <> option_map JsString.toLowerCase (layer_method layer) ->
         operationAt (doc g') key method = operationAt (doc g) key method).
Proof.
  unfold getParams.
  destruct (schemaMap g !! _); [| intros [= <-]; now repeat split].
  destruct (layer_method layer) as [m |]; [| discriminate].
  destruct (negb _); [intros [= <-]; now repeat split |].
  destruct (parse _); [| discriminate].
  destruct (existsb _ _); [discriminate |].
  destruct (inheritsPathItem _ _); [discriminate |].
  intros [= <-]. simpl. repeat split.
  - intros h Hh. now rewrite lookup_insert_ne by congruence.
  - intros key method Hother. unfold operationAt, setOperation; simpl.
    set (recordedPath := toOpenAPIPath (stripBasePath (basePath g) path)).
    destruct (decide (recordedPath = key)) as [<- | Hkey].
    + destruct Hother as [Hkey | Hmethod]; [contradiction |].
      rewrite lookup_insert_eq. simpl.
      rewrite lookup_insert_ne by congruence.
      now destruct (doc_paths (doc g) !! recordedPath).
    + now rewrite lookup_insert_ne by exact Hkey.
Qed.

Lemma getParams_writes_one_operation_witness :
  exists g',
    getParams PathToRegexp.parse "/users/:id" (Examples.handlerLayer 1 "put")
      (recorded Examples.documented 1 "/users/{id}" "get" Examples.okOperation)
    = Returned g'
    /\ operationAt (doc g') "/users/{id}" "get" = Some Examples.okOperation.
Proof.
  eexists. split; [reflexivity |].
  rewrite (proj2 (proj2 (proj2 (proj2
             (getParams_writes_one_operation PathToRegexp.parse "/users/:id"
                (Examples.handlerLayer 1 "put")
                (recorded Examples.documented 1 "/users/{id}" "get"
                   Examples.okOperation) _ eq_refl)))) "/users/{id}" "get");
    [reflexivity | right; discriminate].
Defined.

Lemma resolveParams_names schema keys :
  map param_name (resolveParams schema keys) = map key_name keys
  /\ Forall (fun p => param_in p = "path"
                      /\ is_Some (param_required p)
                      /\ is_Some (param_schema p))
       (resolveParams schema keys).
Proof.
  unfold resolveParams. induction keys as [| k keys [IHn IHf]]; simpl.
  - split; constructor.
  - destruct (assignParam_shape schema k) as (Hname & Hrest). simpl in *.
    split; [now rewrite Hname, IHn | now constructor].
Qed.

(** X8. Where the key is not a name that [paths] inherits, the
    operation [getParams] records has one parameter object for
    each key of the path, in their order, bearing their names, all in
    the path and all with [required] and [schema] set; whatever else
    the schema declares (query, header or cookie parameters,
    references, path parameters the path does not name) is not
    recorded. The summary, description, responses and other fields are
    those of the schema, and the same operation becomes the schema of
    the handle. *)
Theorem getParams_records_path_parameters
    parse path layer g schema m tokens :
  schemaMap g !! handle_ref (layer_handle layer) = Some schema ->
  layer_method layer = Some m ->
  isHTTPMethod (JsString.toLowerCase m) = true ->
  parse (stripBasePath (basePath g) path) = Some tokens ->
  existsb isWildcard (parseKeys tokens) = false ->
  inheritsPathItem (doc g)
    (toOpenAPIPath (stripBasePath (basePath g) path)) = false ->
  exists g' op ps,
    getParams parse path layer g = Returned g'
    /\ operationAt (doc g')
         (toOpenAPIPath (stripBasePath (basePath g) path))
         (JsString.toLowerCase m) = Some op
    /\ schemaMap g' !! handle_ref (layer_handle layer) = Some op
    /\ op_parameters op = Some (map PObject ps)
    /\ map param_name ps = map key_name (parseKeys tokens)
    /\ Forall (fun p => param_in p = "path"
                        /\ is_Some (param_required p)
                        /\ is_Some (param_schema p)) ps
    /\ op_summary op = op_summary schema
    /\ op_description op = op_description schema
    /\ op_responses op = op_responses schema
    /\ op_more op = op_more schema.
Proof.
  intros Hschema Hmethod Hverb Hparse Hwild Hown.
  destruct (resolveParams_names schema (parseKeys tokens)) as [Hnames Hshape].
  eexists _, _, (resolveParams schema (parseKeys tokens)).
  split; [now apply (getParams_records parse path layer g schema m tokens) |].
  split; [apply operationAt_setOperation |].
  split; [apply lookup_insert_eq |].
  now repeat split.
Qed.

Lemma getParams_records_path_parameters_witness :
  exists g' op,
    getParams PathToRegexp.parse "/items/:id" (Examples.handlerLayer 1 "get")
      (addSchema 1 Examples.searchOperation Examples.apiV1)
    = Returned g'
    /\ operationAt (doc g') "/items/{id}" "get" = Some op
    /\ option_map (map (fun entry =>
                          match entry with
                          | PObject p => (param_name p, param_in p)
                          | PReference ref => (ref, "")
                          end)) (op_parameters op)
       = Some [("id", "path")].
Proof.
  destruct (getParams_records_path_parameters PathToRegexp.parse "/items/:id"
              (Examples.handlerLayer 1 "get")
              (addSchema 1 Examples.searchOperation Examples.apiV1)
              Examples.searchOperation "get" [TText "/items/"; TParam "id"]
              eq_refl eq_refl eq_refl eq_refl eq_refl eq_refl)
    as (g' & op & ps & Hget & Hat & _ & Hop & Hnames & Hshape & _).
  exists g', op. split; [exact Hget |]. split; [exact Hat |].
  rewrite Hop. destruct ps as [| p [| p' ps]]; try discriminate Hnames.
  injection Hnames as Hname. inversion Hshape as [| ? ? (Hin & _) _]; subst.
  simpl. now rewrite Hname, Hin.
Defined.

(** X9. A path parameter the schema declares is recorded as declared:
    the first entry of [parameters] that is a parameter object of the
    key's name in the path gives the description, the other fields and,
    where it has them, [required] and [schema]; the flag of the key and
    the string schema fill in only what the declaration leaves out. So
    a declared [required] stands, whether the key lies in a group or
    not. *)
Theorem resolveParams_declared_first schema before p after k :
  op_parameters schema = Some (before ++ PObject p :: after) ->
  Forall (fun entry => declaresPathParam k entry = false) before ->
  param_name p = key_name k ->
  param_in p = "path" ->
  resolveParams schema [k] =
  [{| param_name := key_name k;
      param_in := "path";
      param_required := Some (default (key_required k) (param_required p));
      param_schema :=
        Some (default (JObj [("type", JStr "string")]) (param_schema p));
      param_description := param_description p;
      param_more := param_more p |}].
Proof.
  intros Hparams Hbefore Hname Hin.
  unfold resolveParams, findDeclared. simpl. rewrite Hparams.
  rewrite (find_app_first (declaresPathParam k) before (PObject p) after Hbefore)
    by (simpl; rewrite Hname, Hin, String.eqb_refl; reflexivity).
  simpl. rewrite Hname, Hin.
  now destruct (param_required p), (param_schema p), (param_description p).
Qed.

Lemma resolveParams_declared_first_witness :
  resolveParams Examples.searchOperation [mkKeys "id" KParam false] =
  [{| param_name := "id";
      param_in := "path";
      param_required := Some false;
      param_schema := Some (JObj [("type", JStr "integer")]);
      param_description := Some "The id";
      param_more := [] |}].
Proof.
  apply (resolveParams_declared_first Examples.searchOperation
           [PObject {| param_name := "q";
                       param_in := "query";
                       param_required := Some false;
                       param_schema := None;
                       param_description := None;
                       param_more := [] |};
            PReference "#/components/parameters/page"]
           {| param_name := "id";
              param_in := "path";
              param_required := None;
              param_schema := Some (JObj [("type", JStr "integer")]);
              param_description := Some "The id";
              param_more := [] |}
           [] (mkKeys "id" KParam false));
    try reflexivity.
  repeat constructor.
Defined.

Lemma setOperation_twice path method operation d :
  setOperation path method operation (setOperation path method operation d)
  = setOperation path method operation d.
Proof.
  unfold setOperation; simpl. rewrite lookup_insert_eq. simpl.
  now rewrite !insert_insert_eq.
Qed.



(** ** What the walk keeps and where it stops *)




(** X13. With no schema registered a walk changes nothing: whether it
    returns or throws at a router that is not registered, the generator
    and its document are as they were. *)
Theorem initializeDoc_without_schemas parse router g :
  schemaMap g = ∅ ->
  final (initializeDoc parse router g) = g.
Proof.
  set (R := fun g g' : Generator => schemaMap g = ∅ -> g' = g).
  assert (Hrefl : forall g, R g g) by (intros ? ?; reflexivity).
  assert (Htrans : forall g1 g2 g3, R g1 g2 -> R g2 g3 -> R g1 g3).
  { intros g1 g2 g3 H12 H23 Hempty. specialize (H12 Hempty). subst g2.
    now apply H23. }
  assert (Hparams : forall path layer g,
             R g (final (getParams parse path layer g))).
  { intros path layer g' Hempty.
    rewrite getParams_no_schema; [reflexivity |].
    now rewrite Hempty, lookup_empty. }
  destruct router as [root |]; [| reflexivity].
  apply (forEach_invariant R Hrefl Htrans (recurseStack parse "")
           (router_stack root)).
  apply List.Forall_forall. intros l _ g'.
  now apply (recurseStack_invariant R Hrefl Htrans parse Hparams).
Qed.

Lemma initializeDoc_without_schemas_witness :
  final (initializeDoc PathToRegexp.parse (Some Examples.parentRouter)
           Examples.apiV1)
  = Examples.apiV1.
Proof. apply initializeDoc_without_schemas. reflexivity. Defined.



(** ** The middleware *)

(** X16. The walk is made once: after a request has passed, the latch
    is cleared, and any later request passes without a walk, whatever
    router it carries. A schema registered after that request is kept
    in the registry but never reaches the document. *)
Theorem middleware_walks_once parse router mw mw1 :
  ExpressMiddleware.middleware parse router mw = ExpressMiddleware.Passed mw1 ->
  (forall router', ExpressMiddleware.middleware parse router' mw1
                   = ExpressMiddleware.Passed mw1)
  /\ (forall handler schema router',
         exists mw2,
           ExpressMiddleware.middleware parse router'
             (fst (ExpressMiddleware.path handler schema mw1))
           = ExpressMiddleware.Passed mw2
           /\ ExpressMiddleware.document mw2 = ExpressMiddleware.document mw1).
Proof.
  unfold ExpressMiddleware.middleware. intros Hfirst.
  assert (Hlatch : ExpressMiddleware.mw_isFirstRequest mw1 = false).
  { destruct (ExpressMiddleware.mw_isFirstRequest mw) eqn:Hmw.
    - destruct (initializeDoc parse router _);
        [| discriminate | discriminate].
      now injection Hfirst as <-.
    - injection Hfirst as <-. exact Hmw. }
  split.
  - intros router'. now rewrite Hlatch.
  - intros handler schema router'. simpl. rewrite Hlatch.
    eexists. split; reflexivity.
Qed.

Lemma middleware_walks_once_witness :
  exists mw1,
    ExpressMiddleware.middleware PathToRegexp.parse (Some Examples.usersRouter)
      (ExpressMiddleware.mkMiddleware Examples.documented true)
    = ExpressMiddleware.Passed mw1
    /\ ExpressMiddleware.middleware PathToRegexp.parse
         (Some Examples.fanOutRouter) mw1
       = ExpressMiddleware.Passed mw1.
Proof.
  eexists. split; [reflexivity |].
  apply (middleware_walks_once PathToRegexp.parse (Some Examples.usersRouter)
           (ExpressMiddleware.mkMiddleware Examples.documented true)).
  reflexivity.
Defined.



(** ** Several documented handlers on one route *)

Lemma getParams_other_schemas parse path layer g :
  forall h, h <> handle_ref (layer_handle layer) ->
            schemaMap (final (getParams parse path layer g)) !! h
            = schemaMap g !! h.
Proof.
  intros h Hh. unfold getParams.
  destruct (schemaMap g !! handle_ref (layer_handle layer)); [| reflexivity].
  destruct (layer_method layer); [| reflexivity].
  destruct (negb _); [reflexivity |].
  destruct (parse _); [| reflexivity].
  destruct (existsb _ _); [reflexivity |].
  destruct (inheritsPathItem _ _); [reflexivity |].
  simpl. now rewrite lookup_insert_ne by congruence.
Qed.

(** X18. On a route with one path and two documented handlers bound
    with the same method, both are recorded, one after the other, under
    the same key, a key that is not a name [paths] inherits: they write
    to the same place, and the document keeps the operation of the
    later one, while each handler keeps its own in the registry. *)
Theorem recurseStack_later_handler_wins
    parse path0 dispatch p h1 h2 m s1 s2 g tokens :
  schemaMap g !! dispatch = None ->
  schemaMap g !! h1 = Some s1 ->
  schemaMap g !! h2 = Some s2 ->
  h1 <> h2 ->
  isHTTPMethod (JsString.toLowerCase m) = true ->
  parse (stripBasePath (basePath g) (path0 ++ p)) = Some tokens ->
  existsb isWildcard (parseKeys tokens) = false ->
  inheritsPathItem (doc g)
    (toOpenAPIPath (stripBasePath (basePath g) (path0 ++ p))) = false ->
  exists g',
    recurseStack parse path0
      (Examples.routeLayer dispatch (PathString p)
         [Examples.handlerLayer h1 m; Examples.handlerLayer h2 m]) g
    = Returned g'
    /\ operationAt (doc g')
         (toOpenAPIPath (stripBasePath (basePath g) (path0 ++ p)))
         (JsString.toLowerCase m)
       = Some (settledOperation s2 (parseKeys tokens))
    /\ schemaMap g' !! h1 = Some (settledOperation s1 (parseKeys tokens))
    /\ schemaMap g' !! h2 = Some (settledOperation s2 (parseKeys tokens)).
Proof.
  intros Hdispatch Hs1 Hs2 Hne Hverb Hparse Hwild Hown.
  rewrite recurseStack_routeLayer by exact Hdispatch.
  cbn [forEach]. rewrite recurseStack_handlerLayer.
  rewrite (getParams_records parse _ _ g s1 m tokens)
    by (try assumption; reflexivity).
  cbn [andThen]. rewrite recurseStack_handlerLayer.
  rewrite (getParams_records parse _ _ _ s2 m tokens);
    [| simpl; now rewrite lookup_insert_ne by exact Hne | reflexivity
     | exact Hverb | exact Hparse | exact Hwild
     | eapply inheritsPathItem_own; simpl; apply lookup_insert_eq ].
  eexists. split; [reflexivity |]. simpl. split; [| split].
  - apply operationAt_setOperation.
  - rewrite lookup_insert_ne by congruence. apply lookup_insert_eq.
  - apply lookup_insert_eq.
Qed.

Lemma recurseStack_later_handler_wins_witness :
  exists g',
    recurseStack PathToRegexp.parse ""
      (Examples.routeLayer 11 (PathString "/users/:id")
         [Examples.handlerLayer 1 "get"; Examples.handlerLayer 2 "get"])
      (addSchema 2 Examples.findOperation Examples.documented)
    = Returned g'
    /\ operationAt (doc g') "/users/{id}" "get"
       = Some (settledOperation Examples.findOperation
                 [mkKeys "id" KParam true])
    /\ schemaMap g' !! 1
       = Some (settledOperation Examples.okOperation
                 [mkKeys "id" KParam true])
    /\ schemaMap g' !! 2
       = Some (settledOperation Examples.findOperation
                 [mkKeys "id" KParam true]).
Proof.
  apply (recurseStack_later_handler_wins PathToRegexp.parse "" 11
           "/users/:id" 1 2 "get" Examples.okOperation Examples.findOperation
           (addSchema 2 Examples.findOperation Examples.documented)
           [TText "/users/"; TParam "id"]);
    try reflexivity.
  discriminate.
Defined.



(** ** The records of a walk *)


